(** * redux-orm: QuerySet and Entity

    A shallow embedding of [src/QuerySet.js] and [src/Entity.js], and the
    properties of the query layer proved over it.

    JavaScript values are embedded as follows.
    - Field values and identifiers are primitives ([value]); numbers are
      the integers, and an integer used as a property key is its decimal
      numeral.
    - A plain object used as a record is a finite map from property names
      to values ([gmap string value]); reading a property that is absent
      gives [undefined].
    - The manager is the one shared object every QuerySet and Entity refers
      to: it is the state that the mutating methods thread through, and a
      method is a function from [this] and the manager to an outcome.
    - An Entity instance is the finite map of its own properties:
      [manager], [fieldNames] and one property per record field, all in
      one name space, so that a field named [manager] or [fieldNames]
      takes the place of the instance's own. A property that is not its
      own is read from the class: the methods of [Entity]. What objects
      inherit from the language itself, the properties of
      [Object.prototype], is left out for instances as for records.
    - [match] of [utils.js] and the functions of lodash are not among the
      sources; they are given here by what they do, and what lodash
      leaves to its version (the comparison of two values, the reading
      of a property path) is a parameter. *)

From Stdlib Require Import Ascii.
From stdpp Require Import gmap strings list fin_maps pretty sorting.

Local Open Scope string_scope.
Local Open Scope list_scope.

(** ** Values and records *)

Inductive value : Type :=
  | VUndefined
  | VNull
  | VBool (b : bool)
  | VNum (n : Z)
  | VStr (s : string).

#[global] Instance value_eq_dec : EqDecision value.
Proof. solve_decision. Defined.

#[global] Instance value_inhabited : Inhabited value := populate VUndefined.

(** A plain object: own enumerable properties. *)
Abbreviation record := (gmap string value).

(** [o[k]]: the value of property [k], [undefined] when [o] has none. *)
Definition prop_get (o : record) (k : string) : value :=
  default VUndefined (o !! k).

(** [a === b] on primitives. *)
Definition strict_eq (a b : value) : bool := bool_decide (a = b).

(** The property key a value is coerced to when it indexes an object, as
    in [getEntityMap()[id]]. *)
Definition to_key (v : value) : string :=
  match v with
  | VUndefined => "undefined"
  | VNull => "null"
  | VBool true => "true"
  | VBool false => "false"
  | VNum n => pretty n
  | VStr s => s
  end.

(** [Object.assign(target, source)]: the properties of [source] are
    written over those of [target]. *)
Definition Object_assign (target source : record) : record :=
  source ∪ target.

(** ** Arguments of the mutating methods *)

(** What a caller may hand to [update]: a plain object, a function from a
    record to a record, or any primitive. *)
Inductive updater : Type :=
  | UObject (m : record)
  | UFunction (f : record → record)
  | UPrimitive (v : value).

(** The characters of a string, as the index properties of its wrapper
    object: ["ab"] has the properties [0: "a"] and [1: "b"]. *)
Fixpoint string_props (i : nat) (s : string) : record :=
  match s with
  | EmptyString => ∅
  | String c s' => <[pretty i := VStr (String c EmptyString)]> (string_props (S i) s')
  end.

(** The own enumerable properties [Object.assign] copies from a source:
    those of a plain object, the characters of a string, and none for a
    function, [null], [undefined], a number or a boolean. *)
Definition own_props (u : updater) : record :=
  match u with
  | UObject m => m
  | UFunction _ => ∅
  | UPrimitive (VStr s) => string_props 0 s
  | UPrimitive _ => ∅
  end.

(** What a caller may hand to [filter] and [exclude]. *)
Inductive criteria : Type :=
  | Lookup (o : record)
  | Predicate (p : record → bool).

(** The own enumerable properties of a lookup argument. *)
Definition lookup_props (c : criteria) : record :=
  match c with
  | Lookup o => o
  | Predicate _ => ∅
  end.

(** ** Mutations and the manager *)

(** What an own property of an Entity instance holds: a field value,
    the manager, or an array of property names. *)
Inductive property : Type :=
  | PValue (v : value)
  | PManager
  | PKeys (names : list string).

(** What reading a property of an instance gives: what the own property
    of that name holds, or the method of the class of that name. *)
Inductive got : Type :=
  | Got (p : property)
  | GotMethod (name : string).

(** The objects pushed on [manager.mutations]: [{type: UPDATE, payload:
    {idArr, updater}}] and [{type: DELETE, payload: idArr}]. An Entity
    pushes the one identifier [getId()] gives it; where that is no
    primitive but the manager, an array or a method, the descriptor is
    [UPDATE_object] or [DELETE_object]. *)
Inductive mutation : Type :=
  | UPDATE (idArr : list value) (u : updater)
  | DELETE (idArr : list value)
  | UPDATE_object (id : got) (u : updater)
  | DELETE_object (id : got).

(** [{type: UPDATE, payload: {idArr: [id], updater}}] and
    [{type: DELETE, payload: [id]}] *)
Definition UPDATE_of (id : got) (u : updater) : mutation :=
  match id with
  | Got (PValue v) => UPDATE [v] u
  | _ => UPDATE_object id u
  end.

Definition DELETE_of (id : got) : mutation :=
  match id with
  | Got (PValue v) => DELETE [v]
  | _ => DELETE_object id
  end.

Record Manager : Type := mkManager {
  getIdAttribute : string;
  getEntityMap : gmap string record;
  mutations : list mutation;
}.

Definition push (mu : mutation) (mgr : Manager) : Manager :=
  {| getIdAttribute := getIdAttribute mgr;
     getEntityMap := getEntityMap mgr;
     mutations := mutations mgr ++ [mu] |}.

(** ** Methods as state transformers *)

(** The errors of the error taxonomy, and the [TypeError] of the
    language: a property of [undefined] or [null] is read, or what is
    called is no function. *)
Inductive exn : Type :=
  | InvalidUpdater
  | RecordNotFound
  | TypeError.

(** A call either returns a result or throws, and leaves a state. *)
Inductive outcome (S R : Type) : Type :=
  | Return (r : R) (s : S)
  | Throw (e : exn) (s : S).
Arguments Return {S R} r s.
Arguments Throw {S R} e s.

(** A method body over [this : T] and the shared manager. *)
Definition method (T R : Type) : Type := T * Manager → outcome (T * Manager) R.

#[global] Instance method_ret {T} : MRet (method T) := λ R r s, Return r s.

#[global] Instance method_bind {T} : MBind (method T) := λ A B k c s,
  match c s with
  | Return a s' => k a s'
  | Throw e s' => Throw e s'
  end.

(** [this] and the manager's read-only parts. *)
Definition this {T} : method T T := λ s, Return s.1 s.
Definition set_this {T} (t : T) : method T unit := λ s, Return () (t, s.2).
Definition manager {T} : method T Manager := λ s, Return s.2 s.

Definition throw {T R} (e : exn) : method T R := λ s, Throw e s.

(** [this.manager.mutations.push(mu)] *)
Definition mutations_push {T} (mu : mutation) : method T unit :=
  λ s, Return () (s.1, push mu s.2).

(** ** utils.js *)

(** Modelled from the spec: [match] of [utils.js], which is not among the
    sources. A lookup object matches an entity when, for every property
    the lookup object lists, the entity has exactly that value (equality
    on every listed field, conjunction across the fields). *)
Definition match_ (lookupObj : criteria) (entity : record) : bool :=
  bool_decide
    (map_Forall (λ key v, strict_eq v (prop_get entity key) = true)
                (lookup_props lookupObj)).

(** ** lodash *)

(** [reject(collection, predicate)]: the elements the predicate is not
    true of, in their order. *)
Definition reject {A} (collection : list A) (predicate : A → bool) : list A :=
  List.filter (λ x, negb (predicate x)) collection.

(** [Array.prototype.sort(comparer)], as a sort by insertion. The
    comparer [sortByAll] passes never answers [Eq] on two elements of the
    array, so where it is an order the sorted array is determined by
    it. *)
Section Array_sort.
Context {A : Type} (comparer : A → A → comparison).

Fixpoint insert_sorted (x : A) (l : list A) : list A :=
  match l with
  | [] => [x]
  | y :: l' =>
      match comparer x y with
      | Gt => y :: insert_sorted x l'
      | _ => x :: l
      end
  end.

Definition Array_sort (l : list A) : list A := foldr insert_sorted [] l.
End Array_sort.

(** A name without [.] and without [[]: lodash reads it as the property
    of that name. *)
Definition plain_name (name : string) : bool :=
  forallb (λ c, negb (Ascii.eqb c ".") && negb (Ascii.eqb c "["))
          (String.list_ascii_of_string name).

(** [sortByAll(collection, iteratees)] with names as iteratees: each
    element is paired with the values the iteratees give for it and with
    its index, the pairs are sorted by [compareMultiple], which compares
    the values from the left and falls back on the index, and the
    elements are taken out again. The iteratee of a plain name reads the
    property of that name. Two things are parameters: the comparison of
    two values, [baseCompareAscending], and what the iteratee of a name
    with a [.] or a [[] reads, [pathProperty] (a path into the record in
    the versions of lodash that know paths). *)
Section sortByAll.
Variable baseCompareAscending : value → value → comparison.
Variable pathProperty : string → record → value.

Record sortItem : Type := mkSortItem {
  item_criteria : list value;
  item_index : nat;
  item_value : record;
}.

Fixpoint compareCriteria (objCriteria othCriteria : list value) : comparison :=
  match objCriteria, othCriteria with
  | x :: xs, y :: ys =>
      match baseCompareAscending x y with
      | Eq => compareCriteria xs ys
      | c => c
      end
  | _, _ => Eq
  end.

Definition compareMultiple (object other : sortItem) : comparison :=
  match compareCriteria (item_criteria object) (item_criteria other) with
  | Eq => Nat.compare (item_index object) (item_index other)
  | c => c
  end.

(** [property(name)] *)
Definition iteratee (name : string) (object : record) : value :=
  if plain_name name then prop_get object name else pathProperty name object.

Definition sortItems (iteratees : list string) (collection : list record)
  : list sortItem :=
  imap (λ index value,
          mkSortItem (map (λ name, iteratee name value) iteratees) index value)
       collection.

Definition sortByAll (collection : list record) (iteratees : list string)
  : list record :=
  map item_value (Array_sort compareMultiple (sortItems iteratees collection)).
End sortByAll.

(** ** Entity.js *)

Module Entity.

(** An instance: its own properties. *)
Abbreviation t := (gmap string property).

(** The methods of the class. *)
Definition methods : list string :=
  ["constructor"; "getId"; "toPlain"; "set"; "update"; "delete"].

(** [this[k]] *)
Definition read (self : t) (k : string) : got :=
  match self !! k with
  | Some p => Got p
  | None => if bool_decide (k ∈ methods) then GotMethod k
            else Got (PValue VUndefined)
  end.

(** [Object.assign(this, source)] *)
Definition assign (self : t) (source : record) : t :=
  (PValue <$> source) ∪ self.

(** [Object.keys(props)] *)
Definition Object_keys (props : record) : list string :=
  (map_to_list props).*1.

(** [constructor(manager, props)]: the properties of [props] are
    written over [manager], and [fieldNames] over them. *)
Definition new (props : record) : t :=
  <[ "fieldNames" := PKeys (Object_keys props) ]>
    (assign {[ "manager" := PManager ]} props).

(** [this.manager], where a property of it is read next: the manager,
    or a [TypeError] when the property [manager] holds something
    else, which has no [mutations] and no [getIdAttribute]. *)
Definition the_manager : method t Manager :=
  λ s, match s.1 !! "manager" with
       | Some PManager => Return s.2 s
       | _ => Throw TypeError s
       end.

(** [this.name(...)]: the method of the class, unless an own property
    of that name hides it; an own property holds no function, and the
    call throws. *)
Definition own_method (name : string) : method t unit :=
  λ s, match s.1 !! name with
       | None => Return () s
       | Some _ => Throw TypeError s
       end.

Definition getId : method t got :=
  mgr ← the_manager;
  self ← this;
  mret (read self (getIdAttribute mgr)).

(** [toPlain()]; [forEach] is a method of arrays only. *)
Definition toPlain : method t (gmap string got) :=
  self ← this;
  match self !! "fieldNames" with
  | Some (PKeys fieldNames) =>
      mret (foldl (λ obj fieldName, <[fieldName := read self fieldName]> obj)
                  ∅ fieldNames)
  | _ => throw TypeError
  end.

(** [update(mergeObj)]. After the merge, [this.manager.mutations.push]
    is evaluated, then the argument with its call of [this.getId()],
    then the push. *)
Definition update (mergeObj : updater) : method t unit :=
  self ← this;
  set_this (assign self (own_props mergeObj));;
  the_manager;;
  own_method "getId";;
  id ← getId;
  mutations_push (UPDATE_of id mergeObj).

Definition set (propertyName : string) (v : value) : method t unit :=
  own_method "update";;
  update (UObject {[ propertyName := v ]}).

Definition delete : method t unit :=
  the_manager;;
  own_method "getId";;
  id ← getId;
  mutations_push (DELETE_of id).

End Entity.

(** ** QuerySet.js *)

Module QuerySet.

(** The identifiers a QuerySet includes. Its [manager] property is the
    shared manager of the state. *)
Record t : Type := mk { idArr : list value }.

(** [_new(ids)] *)
Definition _new (ids : list value) : t := mk ids.

(** [Object.assign({[idAttribute]: id}, this.manager.getEntityMap()[id])];
    an identifier the entity map has nothing for contributes no
    property. *)
Definition fullEntity (mgr : Manager) (id : value) : record :=
  Object_assign {[ getIdAttribute mgr := id ]}
                (default ∅ (getEntityMap mgr !! to_key id)).

Definition getFullEntities (mgr : Manager) (self : t) : list record :=
  map (fullEntity mgr) (idArr self).

Definition count (self : t) : nat := length (idArr self).

Definition exists_ (self : t) : bool := negb (Nat.eqb (count self) 0).

Definition all (self : t) : t := _new (idArr self).

(** [entity => entity[this.manager.getIdAttribute()]] *)
Definition entityId (mgr : Manager) (entity : record) : value :=
  prop_get entity (getIdAttribute mgr).

Definition filter (mgr : Manager) (lookupObj : criteria) (self : t) : t :=
  let fullEntities := getFullEntities mgr self in
  let entities :=
    match lookupObj with
    | Predicate p => List.filter p fullEntities
    | Lookup _ => List.filter (λ entity, match_ lookupObj entity) fullEntities
    end in
  let newIdArr := map (entityId mgr) entities in
  _new newIdArr.

Definition exclude (mgr : Manager) (lookupObj : criteria) (self : t) : t :=
  let entities :=
    reject (getFullEntities mgr self) (λ entity, match_ lookupObj entity) in
  _new (map (entityId mgr) entities).

Definition orderBy (cmp : value → value → comparison)
    (path : string → record → value)
    (mgr : Manager) (fieldNames : list string) (self : t) : t :=
  let entities := sortByAll cmp path (getFullEntities mgr self) fieldNames in
  _new (map (entityId mgr) entities).

Definition update (u : updater) : method t unit :=
  self ← this;
  mutations_push (UPDATE (idArr self) u).

Definition delete : method t unit :=
  self ← this;
  mutations_push (DELETE (idArr self)).

(** [_getEntity(entity)] *)
Definition _getEntity (entity : record) : Entity.t := Entity.new entity.

(** [this.idArr[index]]: [undefined] at an index outside the array. *)
Definition idArr_at (self : t) (index : Z) : value :=
  if bool_decide (index < 0)%Z then VUndefined
  else default VUndefined (idArr self !! Z.to_nat index).

(** The outcome of a call on the manager, seen from a method of [self]. *)
Definition with_this {R} (self : t) (o : outcome Manager R) : outcome (t * Manager) R :=
  match o with
  | Return r mgr' => Return r (self, mgr')
  | Throw ex mgr' => Throw ex (self, mgr')
  end.

(** [at(index)]. [this.manager.get] belongs to the manager, which is not
    among the sources: it is the parameter [get], a call that is handed
    the lookup object and the manager and returns an Entity or throws. *)
Definition at_ (get : record → Manager → outcome Manager Entity.t) (index : Z)
  : method t Entity.t :=
  λ s, with_this s.1 (get {[ getIdAttribute s.2 := idArr_at s.1 index ]} s.2).

Definition first (get : record → Manager → outcome Manager Entity.t)
  : method t Entity.t :=
  at_ get 0.

Definition last (get : record → Manager → outcome Manager Entity.t)
  : method t Entity.t :=
  self ← this;
  at_ get (Z.of_nat (length (idArr self)) - 1).

End QuerySet.

(** ** Statements shared by the properties *)

(** A call of [update] fails as the error taxonomy asks for an argument
    that is no updater: it throws [InvalidUpdater] and the mutation log
    is as it was. *)
Definition raises_InvalidUpdater {T} (call : method T unit) (s : T * Manager) : Prop :=
  ∃ s', call s = Throw InvalidUpdater s' ∧ mutations s'.2 = mutations s.2.

(** The instance after [Object.assign(this, mergeObj)]. *)
Definition merged (w : Entity.t) (u : updater) : Entity.t :=
  Entity.assign w (own_props u).

(** An instance whose methods can reach the manager: its [manager]
    property is the manager, and no own property hides [getId]. *)
Definition sound (w : Entity.t) : Prop :=
  w !! "manager" = Some PManager ∧ w !! "getId" = None.

(** A record that has neither a property [manager] nor a property
    [getId]: merged into a sound instance, it leaves it sound. *)
Definition harmless (m : record) : Prop :=
  m !! "manager" = None ∧ m !! "getId" = None.

(** A record that in addition has no property [fieldNames]. *)
Definition ordinary (m : record) : Prop :=
  harmless m ∧ m !! "fieldNames" = None.

(** A plain object as [toPlain] returns it, with field values only. *)
Definition plain_object (r : record) : gmap string got :=
  (λ x, Got (PValue x)) <$> r.

(** Successive calls of [Entity.update] on one instance. *)
Fixpoint update_all (us : list updater) : method Entity.t unit :=
  match us with
  | [] => mret ()
  | u :: us' => Entity.update u;; update_all us'
  end.

(** What the entity map holds for an identifier. *)
Definition stored (mgr : Manager) (id : value) : record :=
  default ∅ (getEntityMap mgr !! to_key id).

(** No record stored for an identifier of the QuerySet carries, in the
    identifier property, a value other than that identifier: the full
    entity of each identifier reads back as that identifier. *)
Definition ids_read_back (mgr : Manager) (v : QuerySet.t) : Prop :=
  ∀ id, id ∈ QuerySet.idArr v →
        QuerySet.entityId mgr (QuerySet.fullEntity mgr id) = id.

(** ** Sample data *)

(** The manager of the specification's scenario. *)
Definition books : Manager :=
  {| getIdAttribute := "id";
     getEntityMap :=
       {[ "1" := {[ "name" := VStr "a" ]};
          "2" := {[ "name" := VStr "b" ]};
          "3" := {[ "name" := VStr "c" ]} ]};
     mutations := [] |}.

Definition ids (l : list Z) : QuerySet.t := QuerySet.mk (VNum <$> l).

(** A manager whose stored records carry an identifier property of
    their own, other than the key they are stored under. *)
Definition relabelled : Manager :=
  {| getIdAttribute := "id";
     getEntityMap :=
       {[ "1" := {[ "id" := VNum 7; "name" := VStr "a" ]};
          "2" := {[ "id" := VNum 7; "name" := VStr "b" ]};
          "7" := {[ "id" := VNum 8; "name" := VStr "c" ]} ]};
     mutations := [] |}.

(** The wrapper of a record with the fields [id] and [name]. *)
Definition book1 : Entity.t :=
  Entity.new {[ "id" := VNum 1; "name" := VStr "a" ]}.

(** ** Statements about narrowing *)

(** Every identifier of [r] is an identifier of [v]. *)
Definition drawn_from (v r : QuerySet.t) : Prop :=
  ∀ id, id ∈ QuerySet.idArr r → id ∈ QuerySet.idArr v.

(** [filter] and [exclude] split the identifiers of [v]: the counts add
    up, no identifier is in both results, every identifier of [v] is in
    one of them, and each result is a subsequence of [v]'s
    identifiers. *)
Definition partitions (mgr : Manager) (c : criteria) (v : QuerySet.t) : Prop :=
  let f := QuerySet.filter mgr c v in
  let x := QuerySet.exclude mgr c v in
  QuerySet.count f + QuerySet.count x = QuerySet.count v
  ∧ (∀ id, ¬ (id ∈ QuerySet.idArr f ∧ id ∈ QuerySet.idArr x))
  ∧ (∀ id, id ∈ QuerySet.idArr v ↔ id ∈ QuerySet.idArr f ∨ id ∈ QuerySet.idArr x)
  ∧ sublist (QuerySet.idArr f) (QuerySet.idArr v)
  ∧ sublist (QuerySet.idArr x) (QuerySet.idArr v).

(** A predicate a caller may filter by: the name is ["b"]. *)
Definition named_b : criteria :=
  Predicate (λ entity, strict_eq (prop_get entity "name") (VStr "b")).

(** ** Statements about ordering *)

(** A comparison is an order on the values that satisfy [P]: a value
    compares equal to itself, swapping the arguments swaps the answer,
    and "not above" is transitive. *)
Definition consistent_on {A} (P : A → Prop) (c : A → A → comparison) : Prop :=
  (∀ x, P x → c x x = Eq)
  ∧ (∀ x y, P x → P y → c y x = CompOpp (c x y))
  ∧ (∀ x y z, P x → P y → P z → c x y ≠ Gt → c y z ≠ Gt → c x z ≠ Gt).

(** The values the full entity of an identifier has at the listed
    fields. *)
Definition sort_keys (path : string → record → value) (mgr : Manager)
    (fieldNames : list string) (id : value) : list value :=
  map (λ name, iteratee path name (QuerySet.fullEntity mgr id)) fieldNames.

(** Ascending, the fields taken from the left as tie-breakers: either
    the values are equal at every field, or at the first field where
    they are not, the left value is below the right one. *)
Definition ascending (cmp : value → value → comparison) (xs ys : list value) : Prop :=
  Forall2 (λ x y, cmp x y = Eq) xs ys
  ∨ ∃ i x y, xs !! i = Some x ∧ ys !! i = Some y ∧ cmp x y = Lt
             ∧ Forall2 (λ x y, cmp x y = Eq) (take i xs) (take i ys).

(** Equal at every listed field. *)
Definition keys_equal (cmp : value → value → comparison) (xs ys : list value) : bool :=
  bool_decide (Forall2 (λ x y, cmp x y = Eq) xs ys).

(** Every value the QuerySet's full entities have at the listed fields
    satisfies [D]. *)
Definition keys_in (D : value → Prop) (path : string → record → value)
    (mgr : Manager) (fieldNames : list string) (v : QuerySet.t) : Prop :=
  ∀ id, id ∈ QuerySet.idArr v → Forall D (sort_keys path mgr fieldNames id).

(** The comparison of two records by the listed fields, and of two
    identifiers by the values of their full entities at these fields. *)
Definition by_fields (cmp : value → value → comparison)
    (path : string → record → value) (fieldNames : list string)
    (a b : record) : comparison :=
  compareCriteria cmp (map (λ name, iteratee path name a) fieldNames)
                      (map (λ name, iteratee path name b) fieldNames).

Definition by_keys (cmp : value → value → comparison)
    (path : string → record → value) (mgr : Manager)
    (fieldNames : list string) (a b : value) : comparison :=
  compareCriteria cmp (sort_keys path mgr fieldNames a) (sort_keys path mgr fieldNames b).

(** The items [sortByAll] sorts, the indices counted from [n]. *)
Definition items_from (path : string → record → value) (fieldNames : list string)
    (n : nat) (collection : list record) : list sortItem :=
  imap (λ index value,
          mkSortItem (map (λ name, iteratee path name value) fieldNames)
                     (n + index) value)
       collection.

(** The strings, and for the examples a comparison that is lodash's on
    two strings, by their characters, and a reading of names that is
    lodash's on plain names; the examples compare strings only and order
    by plain names only. *)
Definition is_string (x : value) : Prop := ∃ s, x = VStr s.

Definition compare_strings (a b : value) : comparison :=
  match a, b with
  | VStr s, VStr t => String.compare s t
  | _, _ => Eq
  end.

Definition no_paths (name : string) (object : record) : value :=
  prop_get object name.

(** Every character of the string is a digit. *)
Definition numeral (k : string) : bool :=
  forallb (λ c, bool_decide (c ∈ String.list_ascii_of_string "0123456789"))
          (String.list_ascii_of_string k).

(** ** Statements about chained calls *)

(** The test [filter] puts to the full entity of an identifier. *)
Definition passes (mgr : Manager) (c : criteria) (id : value) : bool :=
  match c with
  | Predicate p => p (QuerySet.fullEntity mgr id)
  | Lookup _ => match_ c (QuerySet.fullEntity mgr id)
  end.

(** Two lookup objects that give a property they share the same value. *)
Definition agree (o1 o2 : record) : Prop :=
  ∀ k x y, o1 !! k = Some x → o2 !! k = Some y → x = y.

(** The character of a string at an index. *)
Fixpoint char_at (s : string) (i : nat) : option Ascii.ascii :=
  match s, i with
  | EmptyString, _ => None
  | String c _, O => Some c
  | String _ s', S i' => char_at s' i'
  end.

(** Modelled from the spec: the manager's [get], which is not among the
    sources, for the examples. It resolves the identifier of the lookup
    object to the wrapper of its full entity, and fails with
    [RecordNotFound] where the entity map has no record for it. *)
Definition get_stored (lookupObj : record) (mgr : Manager) : outcome Manager Entity.t :=
  let id := prop_get lookupObj (getIdAttribute mgr) in
  match getEntityMap mgr !! to_key id with
  | Some _ => Return (Entity.new (QuerySet.fullEntity mgr id)) mgr
  | None => Throw RecordNotFound mgr
  end.

(** ** Deferred mutations *)

Lemma push_mutations mu mgr : mutations (push mu mgr) = mutations mgr ++ [mu].
Proof. reflexivity. Qed.

Lemma push_getEntityMap mu mgr : getEntityMap (push mu mgr) = getEntityMap mgr.
Proof. reflexivity. Qed.

Lemma push_getIdAttribute mu mgr : getIdAttribute (push mu mgr) = getIdAttribute mgr.
Proof. reflexivity. Qed.

Lemma QuerySet_update_eq u v mgr :
  QuerySet.update u (v, mgr) = Return () (v, push (UPDATE (QuerySet.idArr v) u) mgr).
Proof. reflexivity. Qed.

Lemma QuerySet_delete_eq v mgr :
  QuerySet.delete (v, mgr) = Return () (v, push (DELETE (QuerySet.idArr v)) mgr).
Proof. reflexivity. Qed.

Lemma Object_assign_lookup target source k :
  Object_assign target source !! k
  = match source !! k with Some x => Some x | None => target !! k end.
Proof.
  unfold Object_assign. rewrite lookup_union.
  destruct (source !! k), (target !! k); reflexivity.
Qed.

Lemma prop_get_Some o k x : o !! k = Some x → prop_get o k = x.
Proof. unfold prop_get. intros ->. reflexivity. Qed.

(** ** The instance and its methods *)

Lemma merged_lookup w u k :
  merged w u !! k
  = match own_props u !! k with Some x => Some (PValue x) | None => w !! k end.
Proof.
  unfold merged, Entity.assign. rewrite lookup_union, lookup_fmap.
  destruct (own_props u !! k), (w !! k); reflexivity.
Qed.

Lemma sound_merged w u : sound w → harmless (own_props u) → sound (merged w u).
Proof.
  intros [Hm Hg] [Hm' Hg']. split; rewrite merged_lookup.
  - by rewrite Hm'.
  - by rewrite Hg'.
Qed.

Lemma read_own (w : Entity.t) k p : w !! k = Some p → Entity.read w k = Got p.
Proof. unfold Entity.read. by intros ->. Qed.

Lemma Entity_getId_eq (w : Entity.t) mgr :
  w !! "manager" = Some PManager →
  Entity.getId (w, mgr) = Return (Entity.read w (getIdAttribute mgr)) (w, mgr).
Proof.
  intros Hm. unfold Entity.getId, mbind, method_bind, Entity.the_manager. cbn.
  by rewrite Hm.
Qed.

(** [update] returns exactly when the instance is sound after the merge;
    otherwise it throws a [TypeError] after the merge and before the
    push. *)
Lemma Entity_update_eq u w mgr :
  sound (merged w u) →
  Entity.update u (w, mgr)
  = Return () (merged w u,
               push (UPDATE_of (Entity.read (merged w u) (getIdAttribute mgr)) u) mgr).
Proof.
  intros [Hm Hg].
  unfold Entity.update, mbind, method_bind, Entity.the_manager, Entity.own_method,
    Entity.getId, mbind, method_bind, Entity.the_manager. cbn.
  fold (merged w u). rewrite Hm. cbn [fst snd]. rewrite Hg. cbn [fst snd].
  by rewrite Hm.
Qed.

Lemma Entity_update_throws u w mgr :
  ¬ sound (merged w u) →
  Entity.update u (w, mgr) = Throw TypeError (merged w u, mgr).
Proof.
  intros Hns.
  unfold Entity.update, mbind, method_bind, Entity.the_manager, Entity.own_method,
    Entity.getId, mbind, method_bind, Entity.the_manager. cbn.
  fold (merged w u).
  destruct (merged w u !! "manager") as [[| |] |] eqn:Hm; try reflexivity.
  cbn [fst snd].
  destruct (merged w u !! "getId") eqn:Hg; [reflexivity |].
  by destruct Hns.
Qed.

Lemma Entity_update_never_InvalidUpdater u w mgr :
  ¬ raises_InvalidUpdater (Entity.update u) (w, mgr).
Proof.
  intros (s' & Hcall & _).
  destruct (merged w u !! "manager") as [[| |] |] eqn:Hm;
    try (rewrite Entity_update_throws in Hcall; [discriminate | intros [? _]; congruence]).
  destruct (merged w u !! "getId") eqn:Hg.
  - rewrite Entity_update_throws in Hcall; [discriminate | intros [_ ?]; congruence].
  - rewrite Entity_update_eq in Hcall; [discriminate | by split].
Qed.

(** The property names a string spreads into are numerals. *)
Lemma numeral_String c s :
  numeral (String c s)
  = bool_decide (c ∈ String.list_ascii_of_string "0123456789") && numeral s.
Proof. reflexivity. Qed.

Lemma numeral_pretty_N_go (x : N) s : numeral s = true → numeral (pretty_N_go x s) = true.
Proof.
  revert s. induction (N.lt_wf_0 x) as [x _ IH]; intros s Hs.
  assert (x = 0 ∨ 0 < x)%N as [-> | Hx] by lia; [by rewrite pretty_N_go_0 |].
  rewrite pretty_N_go_step by done. apply IH; [by apply N.div_lt |].
  rewrite numeral_String, Hs, andb_true_r.
  unfold pretty_N_char. repeat case_match; vm_compute; reflexivity.
Qed.

Lemma numeral_pretty (i : nat) : numeral (pretty i) = true.
Proof.
  unfold pretty, pretty_nat, pretty, pretty_N. case_decide; [reflexivity |].
  by apply numeral_pretty_N_go.
Qed.

Lemma string_props_numeral s (n : nat) k x :
  string_props n s !! k = Some x → numeral k = true.
Proof.
  revert n. induction s as [| c s IH]; intros n; cbn; [by rewrite lookup_empty |].
  intros Hk. apply lookup_insert_Some in Hk as [[<- _] | [_ Hk]].
  - apply numeral_pretty.
  - by apply (IH (S n)).
Qed.

Lemma string_props_None s (n : nat) k : numeral k = false → string_props n s !! k = None.
Proof.
  intros Hk. destruct (string_props n s !! k) eqn:E; [| reflexivity].
  apply string_props_numeral in E. congruence.
Qed.

Lemma harmless_primitive p : harmless (own_props (UPrimitive p)).
Proof.
  destruct p; try (by split); cbn [own_props].
  split; by apply string_props_None.
Qed.

Lemma harmless_function f : harmless (own_props (UFunction f)).
Proof. by split. Qed.

Lemma sound_new props : harmless props → sound (Entity.new props).
Proof.
  intros [Hm Hg]. unfold Entity.new, Entity.assign. split.
  - rewrite lookup_insert_ne by done. rewrite lookup_union, lookup_fmap, Hm.
    by rewrite lookup_singleton_eq.
  - rewrite lookup_insert_ne by done. rewrite lookup_union, lookup_fmap, Hg.
    by rewrite lookup_singleton_ne.
Qed.

Lemma sound_book1 : sound book1.
Proof. apply sound_new. by split. Qed.

(** C2: [update] and [delete] of a QuerySet return without touching the
    entity map or the QuerySet's identifiers; the mutation log afterwards
    is the log before followed by the one descriptor, which carries the
    QuerySet's identifiers (and, for [update], the updater). *)
Theorem QuerySet_update_delete_append (v : QuerySet.t) (mgr : Manager) (u : updater) :
  (∃ mgr', QuerySet.update u (v, mgr) = Return () (v, mgr')
           ∧ getEntityMap mgr' = getEntityMap mgr
           ∧ getIdAttribute mgr' = getIdAttribute mgr
           ∧ mutations mgr' = mutations mgr ++ [UPDATE (QuerySet.idArr v) u])
  ∧ (∃ mgr', QuerySet.delete (v, mgr) = Return () (v, mgr')
             ∧ getEntityMap mgr' = getEntityMap mgr
             ∧ getIdAttribute mgr' = getIdAttribute mgr
             ∧ mutations mgr' = mutations mgr ++ [DELETE (QuerySet.idArr v)]).
Proof.
  split; eexists; (split; [first [apply QuerySet_update_eq | apply QuerySet_delete_eq] |]);
    auto using push_mutations.
Qed.










(** ** Full entities *)

Lemma fullEntity_lookup mgr id k :
  QuerySet.fullEntity mgr id !! k
  = match stored mgr id !! k with
    | Some x => Some x
    | None => if decide (k = getIdAttribute mgr) then Some id else None
    end.
Proof.
  unfold QuerySet.fullEntity. rewrite Object_assign_lookup. fold (stored mgr id).
  destruct (stored mgr id !! k); [reflexivity |].
  case_decide as Hk.
  - subst k. apply lookup_singleton_eq.
  - apply lookup_singleton_ne. congruence.
Qed.

Lemma fullEntity_missing mgr id :
  getEntityMap mgr !! to_key id = None →
  QuerySet.fullEntity mgr id = {[ getIdAttribute mgr := id ]}.
Proof.
  intros Hnone. unfold QuerySet.fullEntity, Object_assign. rewrite Hnone. cbn.
  apply (left_id_L ∅ (∪)).
Qed.

Lemma getFullEntities_lookup mgr v i :
  QuerySet.getFullEntities mgr v !! i = QuerySet.fullEntity mgr <$> QuerySet.idArr v !! i.
Proof. unfold QuerySet.getFullEntities. apply list_lookup_fmap. Qed.

(** C6: [getFullEntities] gives one record per identifier, in the order
    of the identifiers. The record at a position has every property the
    entity map holds for the identifier of that position, and the
    identifier under the identifier property when the stored record has
    no such property; for an identifier the entity map holds nothing for,
    it is the record of the identifier property alone. The function is
    total: no case throws. *)
Theorem getFullEntities_spec (mgr : Manager) (v : QuerySet.t) :
  length (QuerySet.getFullEntities mgr v) = QuerySet.count v
  ∧ ∀ i id, QuerySet.idArr v !! i = Some id →
      ∃ e, QuerySet.getFullEntities mgr v !! i = Some e
           ∧ (∀ k, e !! k = match stored mgr id !! k with
                            | Some x => Some x
                            | None => if decide (k = getIdAttribute mgr)
                                      then Some id else None
                            end)
           ∧ (getEntityMap mgr !! to_key id = None →
              e = {[ getIdAttribute mgr := id ]}).
Proof.
  split.
  - unfold QuerySet.getFullEntities, QuerySet.count. apply length_map.
  - intros i id Hi. exists (QuerySet.fullEntity mgr id).
    split; [| split].
    + rewrite getFullEntities_lookup, Hi. reflexivity.
    + intros k. apply fullEntity_lookup.
    + apply fullEntity_missing.
Qed.

Lemma getFullEntities_spec_witness :
  QuerySet.idArr (ids [2; 9]%Z) !! 1 = Some (VNum 9)
  ∧ getEntityMap books !! to_key (VNum 9) = None
  ∧ ∃ e, QuerySet.getFullEntities books (ids [2; 9]%Z) !! 1 = Some e
         ∧ e = {[ "id" := VNum 9 ]}.
Proof.
  assert (QuerySet.idArr (ids [2; 9]%Z) !! 1 = Some (VNum 9)) as Hi by reflexivity.
  assert (getEntityMap books !! to_key (VNum 9) = None) as Hnone
    by (vm_compute; reflexivity).
  split; [exact Hi |]. split; [exact Hnone |].
  destruct (proj2 (getFullEntities_spec books (ids [2; 9]%Z)) 1 (VNum 9) Hi)
    as (e & He & _ & Honly).
  exists e. split; [exact He | exact (Honly Hnone)].
Defined.

(** C9: where the record stored for an identifier of the QuerySet has
    the identifier property itself, the full entity at that position has
    the stored value under that property, whatever the identifier is. *)
Theorem getFullEntities_stored_id_wins
    (mgr : Manager) (v : QuerySet.t) (i : nat) (id x : value) (r : record) :
  QuerySet.idArr v !! i = Some id →
  getEntityMap mgr !! to_key id = Some r →
  r !! getIdAttribute mgr = Some x →
  ∃ e, QuerySet.getFullEntities mgr v !! i = Some e
       ∧ e !! getIdAttribute mgr = Some x
       ∧ QuerySet.entityId mgr e = x.
Proof.
  intros Hi Hr Hx. exists (QuerySet.fullEntity mgr id).
  assert (QuerySet.fullEntity mgr id !! getIdAttribute mgr = Some x) as He.
  { rewrite fullEntity_lookup. unfold stored. rewrite Hr. cbn. rewrite Hx. reflexivity. }
  split; [| split].
  - rewrite getFullEntities_lookup, Hi. reflexivity.
  - exact He.
  - apply prop_get_Some, He.
Qed.

Lemma getFullEntities_stored_id_wins_witness :
  ∃ e, QuerySet.getFullEntities relabelled (ids [1]%Z) !! 0 = Some e
       ∧ e !! "id" = Some (VNum 7)
       ∧ QuerySet.entityId relabelled e = VNum 7.
Proof.
  apply (getFullEntities_stored_id_wins relabelled (ids [1]%Z) 0 (VNum 1) (VNum 7)
           {[ "id" := VNum 7; "name" := VStr "a" ]}); reflexivity.
Defined.

(** ** Serialisation of an Entity *)

Lemma elem_of_Object_keys (props : record) k :
  k ∈ Entity.Object_keys props ↔ k ∈ dom props.
Proof.
  unfold Entity.Object_keys. rewrite elem_of_dom, list_elem_of_fmap. split.
  - intros ([k' x] & -> & Hin). apply elem_of_map_to_list in Hin. eauto.
  - intros [x Hx]. exists (k, x). split; [reflexivity |].
    apply elem_of_map_to_list, Hx.
Qed.

Lemma foldl_insert_lookup (g : string → got) (l : list string) (acc : gmap string got) k :
  foldl (λ obj fieldName, <[fieldName := g fieldName]> obj) acc l !! k
  = if decide (k ∈ l) then Some (g k) else acc !! k.
Proof.
  revert acc. induction l as [| f l IH]; intros acc; cbn.
  - rewrite decide_False; [reflexivity | apply not_elem_of_nil].
  - rewrite IH. destruct (decide (k ∈ l)) as [Hl | Hl].
    + rewrite decide_True; [reflexivity | by right].
    + destruct (decide (k = f)) as [-> | Hne].
      * rewrite lookup_insert_eq, decide_True; [reflexivity | by left].
      * rewrite lookup_insert_ne by congruence.
        rewrite decide_False; [reflexivity |].
        rewrite elem_of_cons. tauto.
Qed.

(** The object [toPlain] builds from the names [l]. *)
Lemma Entity_toPlain_eq (w : Entity.t) mgr l :
  w !! "fieldNames" = Some (PKeys l) →
  ∃ obj, Entity.toPlain (w, mgr) = Return obj (w, mgr)
         ∧ (∀ k, obj !! k = if decide (k ∈ l) then Some (Entity.read w k) else None)
         ∧ dom obj = list_to_set l.
Proof.
  intros Hl. eexists. split; [| split].
  - unfold Entity.toPlain, mbind, method_bind. cbn. rewrite Hl. reflexivity.
  - intros k. by rewrite foldl_insert_lookup, lookup_empty.
  - apply set_eq. intros k.
    rewrite elem_of_dom, foldl_insert_lookup, lookup_empty, elem_of_list_to_set.
    case_decide; split; intros H'; try done.
Qed.

Lemma Entity_toPlain_throws (w : Entity.t) mgr :
  (∀ l, w !! "fieldNames" ≠ Some (PKeys l)) →
  Entity.toPlain (w, mgr) = Throw TypeError (w, mgr).
Proof.
  intros Hl. unfold Entity.toPlain, mbind, method_bind. cbn.
  destruct (w !! "fieldNames") as [[| | l] |]; try reflexivity.
  by destruct (Hl l).
Qed.

Lemma Object_keys_to_set (props : record) :
  list_to_set (Entity.Object_keys props) = dom props.
Proof.
  apply set_eq. intros k. rewrite elem_of_list_to_set. apply elem_of_Object_keys.
Qed.

Lemma new_fieldNames (props : record) :
  Entity.new props !! "fieldNames" = Some (PKeys (Entity.Object_keys props)).
Proof. apply lookup_insert_eq. Qed.

Lemma new_lookup (props : record) k x :
  k ≠ "fieldNames" → props !! k = Some x → Entity.new props !! k = Some (PValue x).
Proof.
  intros Hk Hx. unfold Entity.new, Entity.assign.
  rewrite lookup_insert_ne by done. rewrite lookup_union, lookup_fmap, Hx. cbn.
  by destruct (({[ "manager" := PManager ]} : gmap string property) !! k).
Qed.

Lemma toPlain_new (props : record) mgr :
  props !! "fieldNames" = None →
  Entity.toPlain (Entity.new props, mgr) = Return (plain_object props) (Entity.new props, mgr).
Proof.
  intros Hnone.
  destruct (Entity_toPlain_eq (Entity.new props) mgr _ (new_fieldNames props))
    as (obj & -> & Hobj & _).
  f_equal. apply map_eq. intros k. rewrite Hobj. unfold plain_object.
  rewrite lookup_fmap.
  case_decide as Hk; rewrite elem_of_Object_keys, elem_of_dom in Hk.
  - destruct Hk as [x Hx]. rewrite Hx. cbn. f_equal. apply read_own.
    apply new_lookup; [congruence | done].
  - apply eq_None_not_Some in Hk. by rewrite Hk.
Qed.

Lemma foldl_merged_fieldNames (us : list updater) (w : Entity.t) :
  Forall (λ u, ordinary (own_props u)) us →
  foldl merged w us !! "fieldNames" = w !! "fieldNames".
Proof.
  intros Hus. revert w. induction Hus as [| u us [_ Hu] _ IH]; intros w; cbn; [done |].
  rewrite IH, merged_lookup. by rewrite Hu.
Qed.

Lemma foldl_merged_sound (us : list updater) (w : Entity.t) :
  Forall (λ u, harmless (own_props u)) us → sound w → sound (foldl merged w us).
Proof.
  intros Hus. revert w. induction Hus as [| u us Hu _ IH]; intros w Hw; cbn; [done |].
  apply IH. by apply sound_merged.
Qed.

Lemma bind_Return {T A B} (c : method T A) (k : A → method T B) s a s' :
  c s = Return a s' → (c ≫= k) s = k a s'.
Proof. intros Hc. unfold mbind, method_bind. by rewrite Hc. Qed.

(** On a sound instance, calls of [update] whose arguments have no
    property [manager] or [getId] run to completion. *)
Lemma update_all_returns (us : list updater) (w : Entity.t) (mgr : Manager) :
  sound w → Forall (λ u, harmless (own_props u)) us →
  ∃ mgr', update_all us (w, mgr) = Return () (foldl merged w us, mgr').
Proof.
  intros Hw Hus. revert w mgr Hw.
  induction Hus as [| u us Hu _ IH]; intros w mgr Hw; cbn [update_all foldl].
  - by eexists.
  - pose proof (sound_merged w u Hw Hu) as Hs.
    erewrite bind_Return; [| by apply Entity_update_eq]. by apply IH.
Qed.




(** ** Narrowing *)

Lemma match_spec (o entity : record) :
  match_ (Lookup o) entity = true ↔ ∀ k x, o !! k = Some x → prop_get entity k = x.
Proof.
  unfold match_, strict_eq. rewrite bool_decide_eq_true. cbn. unfold map_Forall.
  split; intros H k x Hk; specialize (H k x Hk).
  - by apply bool_decide_eq_true in H.
  - by apply bool_decide_eq_true.
Qed.

Lemma length_filter_reject {A} (p : A → bool) (l : list A) :
  length (List.filter p l) + length (reject l p) = length l.
Proof.
  unfold reject. induction l as [| a l IH]; cbn; [reflexivity |].
  destruct (p a); cbn; lia.
Qed.

(** Reading the identifiers back from the full entities that pass a test
    is the same as testing the identifiers, when every identifier reads
    back from its full entity. *)
Lemma entityId_filter_fullEntity mgr (p : record → bool) (l : list value) :
  (∀ id, id ∈ l → QuerySet.entityId mgr (QuerySet.fullEntity mgr id) = id) →
  map (QuerySet.entityId mgr) (List.filter p (map (QuerySet.fullEntity mgr) l))
  = List.filter (λ id, p (QuerySet.fullEntity mgr id)) l.
Proof.
  induction l as [| id l IH]; intros Hback; cbn; [reflexivity |].
  assert (map (QuerySet.entityId mgr) (List.filter p (map (QuerySet.fullEntity mgr) l))
          = List.filter (λ id, p (QuerySet.fullEntity mgr id)) l) as IH'.
  { apply IH. intros id' Hin. apply Hback. by right. }
  destruct (p (QuerySet.fullEntity mgr id)); cbn; rewrite IH'; [| reflexivity].
  f_equal. apply Hback. by left.
Qed.

Lemma sublist_List_filter {A} (p : A → bool) (l : list A) : sublist (List.filter p l) l.
Proof.
  induction l as [| a l IH]; cbn; [constructor |].
  destruct (p a); by constructor.
Qed.

Lemma elem_of_List_filter {A} (p : A → bool) (l : list A) a :
  a ∈ List.filter p l ↔ a ∈ l ∧ p a = true.
Proof. rewrite !list_elem_of_In. apply filter_In. Qed.

Lemma filter_idArr mgr c v :
  ids_read_back mgr v →
  QuerySet.idArr (QuerySet.filter mgr c v)
  = List.filter (λ id, match c with
                       | Predicate p => p (QuerySet.fullEntity mgr id)
                       | Lookup _ => match_ c (QuerySet.fullEntity mgr id)
                       end) (QuerySet.idArr v).
Proof.
  intros Hback. unfold QuerySet.filter, QuerySet.getFullEntities. cbn.
  destruct c; by apply entityId_filter_fullEntity.
Qed.

Lemma exclude_idArr mgr c v :
  ids_read_back mgr v →
  QuerySet.idArr (QuerySet.exclude mgr c v)
  = List.filter (λ id, negb (match_ c (QuerySet.fullEntity mgr id))) (QuerySet.idArr v).
Proof.
  intros Hback. unfold QuerySet.exclude, QuerySet.getFullEntities, reject. cbn.
  by apply (entityId_filter_fullEntity mgr (λ e, negb (match_ c e))).
Qed.

(** C1, as the code has it, for a lookup object [o]: the counts of
    [filter(o)] and [exclude(o)] add up to the count of the QuerySet;
    and when every identifier of the QuerySet reads back from its full
    entity, [filter(o)] holds the identifiers whose full entity matches,
    [exclude(o)] holds the others, and the two split the identifiers: no
    identifier in both, each identifier in one, and both in the order of
    the QuerySet. *)
Theorem filter_exclude_partition (mgr : Manager) (v : QuerySet.t) (o : record) :
  QuerySet.count (QuerySet.filter mgr (Lookup o) v)
  + QuerySet.count (QuerySet.exclude mgr (Lookup o) v) = QuerySet.count v
  ∧ (ids_read_back mgr v →
     partitions mgr (Lookup o) v
     ∧ (∀ id, id ∈ QuerySet.idArr (QuerySet.filter mgr (Lookup o) v)
              ↔ id ∈ QuerySet.idArr v
                ∧ match_ (Lookup o) (QuerySet.fullEntity mgr id) = true)
     ∧ (∀ id, id ∈ QuerySet.idArr (QuerySet.exclude mgr (Lookup o) v)
              ↔ id ∈ QuerySet.idArr v
                ∧ match_ (Lookup o) (QuerySet.fullEntity mgr id) = false)).
Proof.
  assert (QuerySet.count (QuerySet.filter mgr (Lookup o) v)
          + QuerySet.count (QuerySet.exclude mgr (Lookup o) v) = QuerySet.count v) as Hcount.
  { unfold QuerySet.count, QuerySet.filter, QuerySet.exclude. cbn.
    rewrite !length_map, length_filter_reject.
    unfold QuerySet.getFullEntities. apply length_map. }
  split; [exact Hcount |]. intros Hback.
  assert (∀ id, id ∈ QuerySet.idArr (QuerySet.filter mgr (Lookup o) v)
                ↔ id ∈ QuerySet.idArr v
                  ∧ match_ (Lookup o) (QuerySet.fullEntity mgr id) = true) as Hf.
  { intros id. rewrite filter_idArr by done. by rewrite elem_of_List_filter. }
  assert (∀ id, id ∈ QuerySet.idArr (QuerySet.exclude mgr (Lookup o) v)
                ↔ id ∈ QuerySet.idArr v
                  ∧ match_ (Lookup o) (QuerySet.fullEntity mgr id) = false) as Hx.
  { intros id. rewrite exclude_idArr by done. rewrite elem_of_List_filter.
    by rewrite negb_true_iff. }
  split; [| by split].
  unfold partitions. cbv zeta.
  split; [exact Hcount |]. split; [| split; [| split]].
  - intros id [H1 H2]. apply Hf in H1 as [_ H1]. apply Hx in H2 as [_ H2]. congruence.
  - intros id. rewrite Hf, Hx.
    destruct (match_ (Lookup o) (QuerySet.fullEntity mgr id)); intuition congruence.
  - rewrite filter_idArr by done. apply sublist_List_filter.
  - rewrite exclude_idArr by done. apply sublist_List_filter.
Qed.

Lemma books_read_back l : ids_read_back books (ids l).
Proof.
  intros id Hin. unfold ids in Hin. cbn in Hin.
  apply list_elem_of_fmap in Hin as (n & -> & _).
  apply prop_get_Some. rewrite fullEntity_lookup.
  assert (∀ r, getEntityMap books !! to_key (VNum n) = Some r → r !! "id" = None) as Hr.
  { intros r. cbn. intros Hr.
    apply lookup_insert_Some in Hr as [[_ <-] | [_ Hr]]; [reflexivity |].
    apply lookup_insert_Some in Hr as [[_ <-] | [_ Hr]]; [reflexivity |].
    apply lookup_singleton_Some in Hr as [_ <-]. reflexivity. }
  unfold stored. destruct (getEntityMap books !! to_key (VNum n)) as [r |] eqn:E; cbn.
  - rewrite (Hr r eq_refl). reflexivity.
  - reflexivity.
Qed.

Lemma filter_exclude_partition_witness :
  ids_read_back books (ids [1; 2; 3]%Z)
  ∧ partitions books (Lookup {[ "name" := VStr "b" ]}) (ids [1; 2; 3]%Z).
Proof.
  split; [apply books_read_back |].
  apply (filter_exclude_partition books (ids [1; 2; 3]%Z) {[ "name" := VStr "b" ]}).
  apply books_read_back.
Defined.

(** C1, refuted as stated. Over records that carry an identifier of
    their own, [filter] and [exclude] by a lookup object both give the
    identifier 7, which the QuerySet does not have. And with a predicate
    for criteria, [exclude] gives nothing where [filter] gives one of
    three identifiers. *)
Lemma filter_exclude_not_partition :
  ¬ partitions relabelled (Lookup {[ "name" := VStr "a" ]}) (ids [1; 2]%Z)
  ∧ ¬ partitions books named_b (ids [1; 2; 3]%Z).
Proof.
  split.
  - intros (_ & Hdisj & _). apply (Hdisj (VNum 7)).
    vm_compute. split; by left.
  - intros (Hcount & _). vm_compute in Hcount. discriminate.
Qed.

(** ** Sorting by insertion *)

Section Array_sort_facts.
Context {A : Type} (c : A → A → comparison).

Lemma insert_sorted_Permutation x l : insert_sorted c x l ≡ₚ x :: l.
Proof.
  induction l as [| y l IH]; cbn; [reflexivity |].
  destruct (c x y); try reflexivity.
  rewrite IH. apply Permutation_swap.
Qed.

Lemma Array_sort_cons x l :
  Array_sort c (x :: l) = insert_sorted c x (Array_sort c l).
Proof. reflexivity. Qed.

Lemma Array_sort_Permutation l : Array_sort c l ≡ₚ l.
Proof.
  induction l as [| x l IH]; [reflexivity |].
  rewrite Array_sort_cons, insert_sorted_Permutation. by rewrite IH.
Qed.

(** A sorted array is left as it is. *)
Lemma Array_sort_sorted l :
  StronglySorted (λ a b, c a b ≠ Gt) l → Array_sort c l = l.
Proof.
  induction 1 as [| x l Hl IH Hx]; [reflexivity |].
  rewrite Array_sort_cons, IH. destruct l as [| y l']; cbn; [reflexivity |].
  apply Forall_cons_1 in Hx as [Hxy _].
  destruct (c x y); done.
Qed.

(** Sorting where the comparison depends on an image of the elements. *)
Lemma insert_sorted_map {B} (f : B → A) (x : B) (s : list B) :
  map f (insert_sorted (λ a b, c (f a) (f b)) x s) = insert_sorted c (f x) (map f s).
Proof.
  induction s as [| y s IHs]; cbn; [reflexivity |].
  destruct (c (f x) (f y)); cbn; try reflexivity.
  by rewrite IHs.
Qed.

Lemma Array_sort_map {B} (f : B → A) (l : list B) :
  map f (Array_sort (λ a b, c (f a) (f b)) l) = Array_sort c (map f l).
Proof.
  induction l as [| x l IH]; [reflexivity |].
  change (map f (x :: l)) with (f x :: map f l).
  rewrite (Array_sort_cons (f x)), <- IH. apply insert_sorted_map.
Qed.

Section on_an_order.
Context (P : A → Prop) (Hc : consistent_on P c).

Lemma consistent_Eq_trans x y z :
  P x → P y → P z → c x y = Eq → c y z = Eq → c x z = Eq.
Proof.
  destruct Hc as (_ & Hsym & Htrans). intros Hx Hy Hz Hxy Hyz.
  assert (c x z ≠ Gt) as H1 by (apply (Htrans x y z); congruence).
  assert (c z x ≠ Gt) as H2.
  { apply (Htrans z y x); try done.
    - rewrite (Hsym y z), Hyz; done.
    - rewrite (Hsym x y), Hxy; done. }
  rewrite (Hsym x z) in H2 by done.
  destruct (c x z); done.
Qed.

Lemma consistent_Eq_sym x y : P x → P y → c x y = Eq → c y x = Eq.
Proof.
  destruct Hc as (_ & Hsym & _). intros Hx Hy Hxy.
  by rewrite (Hsym x y), Hxy.
Qed.

Lemma consistent_Lt_trans x y z :
  P x → P y → P z → c x y ≠ Gt → c y z ≠ Gt →
  c x y = Lt ∨ c y z = Lt → c x z = Lt.
Proof.
  destruct Hc as (_ & Hsym & Htrans). intros Hx Hy Hz Hxy Hyz Hlt.
  assert (c x z ≠ Gt) as H1 by by apply (Htrans x y z).
  destruct (c x z) eqn:Hxz; try done. exfalso.
  assert (c z x ≠ Gt) as Hzx by (rewrite (Hsym x z), Hxz; done).
  destruct Hlt as [Hlt | Hlt].
  - assert (c y x ≠ Gt) as Hyx by by apply (Htrans y z x).
    rewrite (Hsym x y), Hlt in Hyx; done.
  - assert (c z y ≠ Gt) as Hzy by by apply (Htrans z x y).
    rewrite (Hsym y z), Hlt in Hzy; done.
Qed.

Lemma insert_sorted_StronglySorted x l :
  P x → Forall P l →
  StronglySorted (λ a b, c a b ≠ Gt) l →
  StronglySorted (λ a b, c a b ≠ Gt) (insert_sorted c x l).
Proof.
  destruct Hc as (_ & Hsym & Htrans). intros Hx HP Hs.
  induction Hs as [| y l Hl IH Hy]; cbn; [repeat constructor |].
  apply Forall_cons_1 in HP as [HPy HPl].
  destruct (c x y) eqn:Hxy.
  - constructor; [by constructor |]. constructor; [congruence |].
    eapply Forall_impl; [apply Forall_and; split; [exact Hy | exact HPl] |].
    cbn. intros z [Hyz HPz]. apply (Htrans x y z); congruence.
  - constructor; [by constructor |]. constructor; [congruence |].
    eapply Forall_impl; [apply Forall_and; split; [exact Hy | exact HPl] |].
    cbn. intros z [Hyz HPz]. apply (Htrans x y z); congruence.
  - constructor; [by apply IH |].
    rewrite insert_sorted_Permutation. constructor; [| done].
    rewrite (Hsym x y), Hxy; done.
Qed.

Lemma Array_sort_StronglySorted l :
  Forall P l → StronglySorted (λ a b, c a b ≠ Gt) (Array_sort c l).
Proof.
  induction 1 as [| x l Hx Hl IH]; [constructor |].
  rewrite Array_sort_cons. apply insert_sorted_StronglySorted; try done.
  by rewrite Array_sort_Permutation.
Qed.

Lemma Array_sort_idempotent l :
  Forall P l → Array_sort c (Array_sort c l) = Array_sort c l.
Proof. intros Hl. by apply Array_sort_sorted, Array_sort_StronglySorted. Qed.

(** Stability: the elements that compare equal to [k] keep their
    order. *)
Lemma insert_sorted_filter_Eq k x l :
  P k → P x → Forall P l →
  List.filter (λ a, bool_decide (c a k = Eq)) (insert_sorted c x l)
  = List.filter (λ a, bool_decide (c a k = Eq)) (x :: l).
Proof.
  intros Hk Hx Hl. induction Hl as [| y l Hy Hl IH]; [reflexivity |].
  cbn [insert_sorted]. destruct (c x y) eqn:Hxy; try reflexivity.
  cbn [List.filter] in *. rewrite IH.
  case_bool_decide as Hxk; [| reflexivity].
  case_bool_decide as Hyk; [| reflexivity].
  exfalso. apply (consistent_Eq_sym y k) in Hyk; try done.
  pose proof (consistent_Eq_trans x k y Hx Hk Hy Hxk Hyk). congruence.
Qed.

Lemma Array_sort_stable k l :
  P k → Forall P l →
  List.filter (λ a, bool_decide (c a k = Eq)) (Array_sort c l)
  = List.filter (λ a, bool_decide (c a k = Eq)) l.
Proof.
  intros Hk. induction 1 as [| x l Hx Hl IH]; [reflexivity |].
  rewrite Array_sort_cons, insert_sorted_filter_Eq; try done.
  - cbn [List.filter]. by rewrite IH.
  - by rewrite Array_sort_Permutation.
Qed.
End on_an_order.
End Array_sort_facts.

(** A comparison taken through a function is an order where the
    original is. *)
Lemma consistent_on_map {A B} (f : B → A) (P : A → Prop) (Q : B → Prop)
    (c : A → A → comparison) :
  (∀ b, Q b → P (f b)) → consistent_on P c →
  consistent_on Q (λ a b, c (f a) (f b)).
Proof.
  intros HQ (Hrefl & Hsym & Htrans). split; [| split].
  - intros x Hx. by apply Hrefl, HQ.
  - intros x y Hx Hy. by apply Hsym; apply HQ.
  - intros x y z Hx Hy Hz. by apply Htrans; apply HQ.
Qed.

(** ** Comparing by several fields *)

Section compareCriteria_facts.
Context (cmp : value → value → comparison).

Lemma compareCriteria_Eq xs ys :
  length xs = length ys →
  compareCriteria cmp xs ys = Eq ↔ Forall2 (λ x y, cmp x y = Eq) xs ys.
Proof.
  revert ys. induction xs as [| x xs IH]; intros [| y ys] Hlen; try discriminate.
  - split; [constructor | reflexivity].
  - cbn in *. split.
    + intros H. destruct (cmp x y) eqn:Hxy; try done.
      constructor; [done |]. apply IH; [lia | done].
    + intros H. apply Forall2_cons_1 in H as [-> H]. apply IH; [lia | done].
Qed.

Lemma compareCriteria_ascending xs ys :
  length xs = length ys →
  compareCriteria cmp xs ys ≠ Gt → ascending cmp xs ys.
Proof.
  revert ys. induction xs as [| x xs IH]; intros [| y ys] Hlen Hle; try discriminate.
  - left. constructor.
  - cbn in *. destruct (cmp x y) eqn:Hxy; try done.
    + destruct (IH ys) as [Heq | (i & x' & y' & Hx' & Hy' & Hlt & Hpre)]; [lia | done | |].
      * left. by constructor.
      * right. exists (S i), x', y'. split; [done |]. split; [done |]. split; [done |].
        cbn. by constructor.
    + right. exists 0, x, y. split; [done |]. split; [done |]. split; [done |].
      cbn. constructor.
Qed.

Lemma compareCriteria_consistent (D : value → Prop) (n : nat) :
  consistent_on D cmp →
  consistent_on (λ l, length l = n ∧ Forall D l) (compareCriteria cmp).
Proof.
  intros Hc. pose proof Hc as (Hrefl & Hsym & Htrans). split; [| split].
  - intros l [_ Hl]. induction Hl as [| x l Hx Hl IH]; cbn; [done |].
    by rewrite Hrefl.
  - intros xs. revert n. induction xs as [| x xs IH]; intros n [| y ys] [Hn Hxs] [Hm Hys];
      cbn in *; try done; try lia.
    apply Forall_cons_1 in Hxs as [Hx Hxs]. apply Forall_cons_1 in Hys as [Hy Hys].
    rewrite (Hsym x y) by done. destruct (cmp x y); cbn; try done.
    apply (IH (length xs)); split; try done; lia.
  - intros xs. revert n.
    induction xs as [| x xs IH]; intros n [| y ys] [| z zs] [Hn Hxs] [Hm Hys] [Hk Hzs];
      cbn in *; try done; try lia.
    apply Forall_cons_1 in Hxs as [Hx Hxs]. apply Forall_cons_1 in Hys as [Hy Hys].
    apply Forall_cons_1 in Hzs as [Hz Hzs].
    intros Hxy Hyz.
    destruct (cmp x y) eqn:Exy; try done; destruct (cmp y z) eqn:Eyz; try done.
    + rewrite (consistent_Eq_trans cmp D Hc x y z) by done.
      apply (IH (length xs) ys zs); try done; split; try done; lia.
    + rewrite (consistent_Lt_trans cmp D Hc x y z); try done; try congruence. by right.
    + rewrite (consistent_Lt_trans cmp D Hc x y z); try done; try congruence. by left.
    + rewrite (consistent_Lt_trans cmp D Hc x y z); try done; try congruence. by left.
Qed.

(** ** sortByAll is the stable sort by the listed fields *)

Context (path : string → record → value) (fieldNames : list string).

Local Abbreviation by_fields := (by_fields cmp path fieldNames).
Local Abbreviation items_from := (items_from path fieldNames).
Local Abbreviation criteria_of := (λ value : record, map (λ name, iteratee path name value) fieldNames).

Lemma items_from_cons n x l :
  items_from n (x :: l)
  = mkSortItem (criteria_of x) n x :: items_from (S n) l.
Proof.
  unfold items_from. rewrite imap_cons. f_equal; [f_equal; lia |].
  apply imap_ext. intros i y _. cbn. f_equal. lia.
Qed.

Lemma items_from_Forall (n : nat) l :
  Forall (λ it, (n ≤ item_index it)%nat
                ∧ item_criteria it = criteria_of (item_value it))
         (items_from n l).
Proof.
  revert n. induction l as [| x l IH]; intros n; [constructor |].
  rewrite items_from_cons. constructor; [done |].
  eapply Forall_impl; [apply (IH (S n)) |]. cbn. intros it [? ?]. split; [lia | done].
Qed.

Lemma insert_sorted_items (n : nat) x (s : list sortItem) :
  Forall (λ it, (S n ≤ item_index it)%nat
                ∧ item_criteria it = criteria_of (item_value it)) s →
  map item_value
      (insert_sorted (compareMultiple cmp)
                     (mkSortItem (criteria_of x) n x) s)
  = insert_sorted by_fields x (map item_value s).
Proof.
  induction 1 as [| it s [Hidx Hcrit] Hs IH]; [reflexivity |].
  cbn [insert_sorted map]. unfold compareMultiple at 1. cbn [item_criteria item_index].
  rewrite Hcrit. fold (by_fields x (item_value it)).
  destruct (by_fields x (item_value it)) eqn:Hcmp.
  - assert (Nat.compare n (item_index it) = Lt) as ->
      by (apply Nat.compare_lt_iff; lia).
    reflexivity.
  - reflexivity.
  - cbn [map]. by rewrite IH.
Qed.

Lemma sort_items_from n l :
  map item_value (Array_sort (compareMultiple cmp) (items_from n l))
  = Array_sort by_fields l.
Proof.
  revert n. induction l as [| x l IH]; intros n; [reflexivity |].
  rewrite items_from_cons, !Array_sort_cons, <- (IH (S n)).
  apply insert_sorted_items.
  rewrite Array_sort_Permutation. apply items_from_Forall.
Qed.

Lemma sortByAll_by_fields l :
  sortByAll cmp path l fieldNames = Array_sort by_fields l.
Proof. apply (sort_items_from 0). Qed.
End compareCriteria_facts.

(** ** The comparison of strings *)

Lemma Ascii_compare_N a b : Ascii.compare a b = N.compare (Ascii.N_of_ascii a) (Ascii.N_of_ascii b).
Proof. reflexivity. Qed.

Lemma String_compare_refl s : String.compare s s = Eq.
Proof.
  induction s as [| x s IH]; cbn; [reflexivity |].
  by rewrite Ascii_compare_N, N.compare_refl.
Qed.

Lemma String_compare_trans a b c :
  String.compare a b ≠ Gt → String.compare b c ≠ Gt → String.compare a c ≠ Gt.
Proof.
  revert b c. induction a as [| x a IH]; intros [| y b] [| z c]; cbn; try done.
  rewrite !Ascii_compare_N.
  destruct (N.compare_spec (Ascii.N_of_ascii x) (Ascii.N_of_ascii y)) as [Hxy | Hxy | Hxy];
    destruct (N.compare_spec (Ascii.N_of_ascii y) (Ascii.N_of_ascii z)) as [Hyz | Hyz | Hyz];
    destruct (N.compare_spec (Ascii.N_of_ascii x) (Ascii.N_of_ascii z)) as [Hxz | Hxz | Hxz];
    try done; try lia.
  apply IH.
Qed.

Lemma compare_strings_on_strings : consistent_on is_string compare_strings.
Proof.
  split; [| split].
  - intros _ [s ->]. apply String_compare_refl.
  - intros _ _ [s ->] [t ->]. apply String.compare_antisym.
  - intros _ _ _ [s ->] [t ->] [u ->]. apply String_compare_trans.
Qed.

(** ** Ordering *)

Lemma StronglySorted_impl {A} (R S : A → A → Prop) (l : list A) :
  (∀ a b, a ∈ l → b ∈ l → R a b → S a b) → StronglySorted R l → StronglySorted S l.
Proof.
  intros HRS Hl. induction Hl as [| x l Hl IH Hx]; constructor.
  - apply IH. intros a b Ha Hb. apply HRS; by right.
  - apply Forall_forall. intros y Hy. apply HRS; [by left | by right |].
    by apply (proj1 (Forall_forall _ _) Hx).
Qed.

Lemma map_entityId_fullEntity mgr (l : list value) :
  (∀ id, id ∈ l → QuerySet.entityId mgr (QuerySet.fullEntity mgr id) = id) →
  map (QuerySet.entityId mgr) (map (QuerySet.fullEntity mgr) l) = l.
Proof.
  induction l as [| id l IH]; intros Hback; cbn; [reflexivity |].
  rewrite Hback by (by left). f_equal. apply IH. intros id' Hin. apply Hback. by right.
Qed.

(** With identifiers that read back, [orderBy] sorts the identifiers by
    the values of their full entities. *)
Lemma orderBy_idArr cmp path mgr fieldNames v :
  ids_read_back mgr v →
  QuerySet.idArr (QuerySet.orderBy cmp path mgr fieldNames v)
  = Array_sort (by_keys cmp path mgr fieldNames) (QuerySet.idArr v).
Proof.
  intros Hback. unfold QuerySet.orderBy, QuerySet.getFullEntities. cbn.
  rewrite sortByAll_by_fields.
  rewrite <- (Array_sort_map (by_fields cmp path fieldNames) (QuerySet.fullEntity mgr)).
  apply map_entityId_fullEntity. intros id Hin. apply Hback.
  by rewrite Array_sort_Permutation in Hin.
Qed.

Lemma orderBy_read_back cmp path mgr fieldNames v :
  ids_read_back mgr v → ids_read_back mgr (QuerySet.orderBy cmp path mgr fieldNames v).
Proof.
  intros Hback id Hin. rewrite orderBy_idArr in Hin by done.
  rewrite Array_sort_Permutation in Hin. by apply Hback.
Qed.

Lemma length_sort_keys path mgr fieldNames id :
  length (sort_keys path mgr fieldNames id) = length fieldNames.
Proof. apply length_map. Qed.

Lemma by_keys_consistent cmp D path mgr fieldNames :
  consistent_on D cmp →
  consistent_on (λ id, Forall D (sort_keys path mgr fieldNames id)) (by_keys cmp path mgr fieldNames).
Proof.
  intros Hc.
  apply (consistent_on_map (sort_keys path mgr fieldNames)
           (λ l, length l = length fieldNames ∧ Forall D l)).
  - intros id Hid. split; [apply length_sort_keys | done].
  - by apply compareCriteria_consistent.
Qed.

Lemma keys_equal_by_keys cmp path mgr fieldNames a b :
  keys_equal cmp (sort_keys path mgr fieldNames a) (sort_keys path mgr fieldNames b)
  = bool_decide (by_keys cmp path mgr fieldNames a b = Eq).
Proof.
  unfold keys_equal, by_keys. apply bool_decide_ext. symmetry.
  apply compareCriteria_Eq. by rewrite !length_sort_keys.
Qed.

(** C8, as the code has it: [all] gives exactly the identifiers of the
    QuerySet, and when every identifier of the QuerySet reads back from
    its full entity, each identifier of [filter], [exclude] and [orderBy]
    is one of the QuerySet's. *)
Theorem narrowing_draws_from_view
    (cmp : value → value → comparison) (path : string → record → value)
    (mgr : Manager) (v : QuerySet.t) (c : criteria) (fieldNames : list string) :
  QuerySet.idArr (QuerySet.all v) = QuerySet.idArr v
  ∧ drawn_from v (QuerySet.all v)
  ∧ (ids_read_back mgr v →
     drawn_from v (QuerySet.filter mgr c v)
     ∧ drawn_from v (QuerySet.exclude mgr c v)
     ∧ drawn_from v (QuerySet.orderBy cmp path mgr fieldNames v)).
Proof.
  split; [reflexivity |].
  split; [by intros id Hin |]. intros Hback. split; [| split]; intros id Hin.
  - rewrite filter_idArr in Hin by done. by apply elem_of_List_filter in Hin as [? _].
  - rewrite exclude_idArr in Hin by done. by apply elem_of_List_filter in Hin as [? _].
  - rewrite orderBy_idArr in Hin by done. by rewrite Array_sort_Permutation in Hin.
Qed.

Lemma narrowing_draws_from_view_witness :
  ids_read_back books (ids [3; 1; 2]%Z)
  ∧ drawn_from (ids [3; 1; 2]%Z)
               (QuerySet.orderBy compare_strings no_paths books ["name"] (ids [3; 1; 2]%Z))
  ∧ drawn_from (ids [3; 1; 2]%Z) (QuerySet.filter books named_b (ids [3; 1; 2]%Z)).
Proof.
  split; [apply books_read_back |].
  destruct (narrowing_draws_from_view compare_strings no_paths books (ids [3; 1; 2]%Z)
              named_b ["name"]) as (_ & _ & Hnarrow).
  destruct (Hnarrow (books_read_back _)) as (Hf & _ & Ho). by split.
Defined.

(** C8, refuted as stated: over records that carry an identifier of
    their own, [filter] gives the identifier 7 from a QuerySet of 1
    and 2. *)
Lemma filter_invents_identifier :
  ¬ drawn_from (ids [1; 2]%Z)
               (QuerySet.filter relabelled (Lookup {[ "name" := VStr "a" ]}) (ids [1; 2]%Z)).
Proof.
  intros Hdrawn.
  assert (VNum 7 ∈ [VNum 1; VNum 2]) as Hin.
  { apply (Hdrawn (VNum 7)). vm_compute. by left. }
  apply list_elem_of_In in Hin. destruct Hin as [[=] | [[=] | []]].
Qed.

(** C4, as the code has it. The values [orderBy] compares are those the
    iteratees of lodash read: the property of the name for a name
    without [.] and [[], and what lodash makes of the name otherwise. Let
    the comparison of values be an order on the values read from the
    full entities for the listed names, and let every identifier of the
    QuerySet read back from its full entity. Then [orderBy] rearranges
    the identifiers; of two identifiers in the result, the earlier is
    not above the later, the names compared from the left; the
    identifiers that are equal at every listed name are in the order they
    had; and ordering the result again gives the result. *)
Theorem orderBy_sorts_stably
    (cmp : value → value → comparison) (D : value → Prop)
    (path : string → record → value) (mgr : Manager) (fieldNames : list string) (v : QuerySet.t) :
  consistent_on D cmp →
  keys_in D path mgr fieldNames v →
  ids_read_back mgr v →
  let r := QuerySet.orderBy cmp path mgr fieldNames v in
  QuerySet.idArr r ≡ₚ QuerySet.idArr v
  ∧ StronglySorted
      (λ a b, ascending cmp (sort_keys path mgr fieldNames a) (sort_keys path mgr fieldNames b))
      (QuerySet.idArr r)
  ∧ (∀ id0, id0 ∈ QuerySet.idArr v →
       List.filter (λ id, keys_equal cmp (sort_keys path mgr fieldNames id)
                                      (sort_keys path mgr fieldNames id0))
                   (QuerySet.idArr r)
       = List.filter (λ id, keys_equal cmp (sort_keys path mgr fieldNames id)
                                        (sort_keys path mgr fieldNames id0))
                     (QuerySet.idArr v))
  ∧ QuerySet.orderBy cmp path mgr fieldNames r = r.
Proof.
  intros Hc Hkeys Hback r.
  pose proof (by_keys_consistent cmp D path mgr fieldNames Hc) as Hc'.
  assert (Forall (λ id, Forall D (sort_keys path mgr fieldNames id)) (QuerySet.idArr v)) as Hall
    by by apply Forall_forall.
  assert (QuerySet.idArr r
          = Array_sort (by_keys cmp path mgr fieldNames) (QuerySet.idArr v)) as Hr
    by by apply orderBy_idArr.
  split; [| split; [| split]].
  - rewrite Hr. apply Array_sort_Permutation.
  - rewrite Hr.
    eapply StronglySorted_impl; [| by eapply Array_sort_StronglySorted].
    intros a b _ _ Hle. apply compareCriteria_ascending; [| exact Hle].
    by rewrite !length_sort_keys.
  - intros id0 Hid0. rewrite Hr.
    rewrite (List.filter_ext _ (λ id, bool_decide (by_keys cmp path mgr fieldNames id id0 = Eq)))
      by (intros; apply keys_equal_by_keys).
    rewrite (List.filter_ext
               (λ id, keys_equal cmp (sort_keys path mgr fieldNames id) (sort_keys path mgr fieldNames id0))
               (λ id, bool_decide (by_keys cmp path mgr fieldNames id id0 = Eq)))
      by (intros; apply keys_equal_by_keys).
    eapply Array_sort_stable; [exact Hc' | by apply Hkeys | exact Hall].
  - assert (QuerySet.idArr (QuerySet.orderBy cmp path mgr fieldNames r) = QuerySet.idArr r) as Hrr.
    { rewrite (orderBy_idArr cmp path mgr fieldNames r) by by apply orderBy_read_back.
      rewrite Hr. by eapply Array_sort_idempotent. }
    destruct (QuerySet.orderBy cmp path mgr fieldNames r), r. cbn in Hrr. by rewrite Hrr.
Qed.

Lemma books_names_are_strings : keys_in is_string no_paths books ["name"] (ids [3; 1; 2]%Z).
Proof.
  intros id Hin. apply list_elem_of_In in Hin.
  destruct Hin as [<- | [<- | [<- | []]]]; (constructor; [| constructor]).
  - by exists "c".
  - by exists "a".
  - by exists "b".
Qed.

Lemma orderBy_sorts_stably_witness :
  consistent_on is_string compare_strings
  ∧ keys_in is_string no_paths books ["name"] (ids [3; 1; 2]%Z)
  ∧ ids_read_back books (ids [3; 1; 2]%Z)
  ∧ QuerySet.idArr (QuerySet.orderBy compare_strings no_paths books ["name"] (ids [3; 1; 2]%Z))
    ≡ₚ QuerySet.idArr (ids [3; 1; 2]%Z)
  ∧ QuerySet.orderBy compare_strings no_paths books ["name"]
      (QuerySet.orderBy compare_strings no_paths books ["name"] (ids [3; 1; 2]%Z))
    = QuerySet.orderBy compare_strings no_paths books ["name"] (ids [3; 1; 2]%Z).
Proof.
  split; [exact compare_strings_on_strings |].
  split; [exact books_names_are_strings |].
  split; [apply books_read_back |].
  destruct (orderBy_sorts_stably compare_strings is_string no_paths books ["name"]
              (ids [3; 1; 2]%Z) compare_strings_on_strings
              books_names_are_strings (books_read_back _))
    as (Hperm & _ & _ & Hidem).
  by split.
Defined.

(** C4, refuted as stated: over records that carry an identifier of
    their own, ordering the result again gives other identifiers. *)
Lemma orderBy_not_idempotent :
  QuerySet.orderBy compare_strings no_paths relabelled ["name"]
    (QuerySet.orderBy compare_strings no_paths relabelled ["name"] (ids [1; 2]%Z))
  ≠ QuerySet.orderBy compare_strings no_paths relabelled ["name"] (ids [1; 2]%Z).
Proof. vm_compute. discriminate. Qed.

(** ** The scenario of the specification *)

Example scenario_filter :
  QuerySet.filter books (Lookup {[ "name" := VStr "b" ]}) (ids [1; 2; 3]%Z) = ids [2]%Z.
Proof. vm_compute. reflexivity. Qed.

Example scenario_exclude :
  QuerySet.exclude books (Lookup {[ "name" := VStr "b" ]}) (ids [1; 2; 3]%Z)
  = ids [1; 3]%Z.
Proof. vm_compute. reflexivity. Qed.

Example scenario_orderBy :
  QuerySet.orderBy compare_strings no_paths books ["name"] (ids [3; 1; 2]%Z)
  = ids [1; 2; 3]%Z.
Proof. vm_compute. reflexivity. Qed.

Example scenario_update :
  QuerySet.update (UObject {[ "name" := VStr "z" ]}) (ids [1; 2]%Z, books)
  = Return () (ids [1; 2]%Z,
               push (UPDATE [VNum 1; VNum 2] (UObject {[ "name" := VStr "z" ]})) books).
Proof. reflexivity. Qed.

Example scenario_delete :
  ∃ w, Entity.delete (Entity.new {[ "id" := VNum 5 ]}, books)
       = Return () (w, push (DELETE [VNum 5]) books).
Proof. eexists. vm_compute. reflexivity. Qed.

(** A predicate handed to [exclude] is not called: every entity is
    rejected. *)
Example exclude_predicate :
  QuerySet.exclude books named_b (ids [1; 2; 3]%Z) = ids []
  ∧ QuerySet.filter books named_b (ids [1; 2; 3]%Z) = ids [2]%Z.
Proof. split; vm_compute; reflexivity. Qed.

(** ** More on Entity *)

Lemma merged_no_props w u : own_props u = ∅ → merged w u = w.
Proof.
  intros Hu. unfold merged, Entity.assign. rewrite Hu, fmap_empty.
  apply (left_id_L ∅ (∪)).
Qed.

Lemma Entity_delete_eq (w : Entity.t) mgr :
  sound w →
  Entity.delete (w, mgr)
  = Return () (w, push (DELETE_of (Entity.read w (getIdAttribute mgr))) mgr).
Proof.
  intros [Hm Hg].
  unfold Entity.delete, mbind, method_bind, Entity.the_manager, Entity.own_method,
    Entity.getId, mbind, method_bind, Entity.the_manager. cbn [fst snd].
  rewrite Hm. cbn [fst snd]. rewrite Hg. cbn [fst snd]. by rewrite Hm.
Qed.

Lemma Entity_set_eq (w : Entity.t) mgr p x :
  w !! "update" = None →
  Entity.set p x (w, mgr) = Entity.update (UObject {[ p := x ]}) (w, mgr).
Proof.
  intros Hu. unfold Entity.set, mbind, method_bind, Entity.own_method. cbn [fst snd].
  by rewrite Hu.
Qed.

Lemma new_lookup_None (props : record) k :
  k ≠ "fieldNames" → k ≠ "manager" → props !! k = None → Entity.new props !! k = None.
Proof.
  intros Hf Hm Hk. unfold Entity.new, Entity.assign.
  rewrite lookup_insert_ne by done. rewrite lookup_union, lookup_fmap, Hk. cbn.
  by rewrite lookup_singleton_ne.
Qed.













(** ** More on QuerySet *)

Lemma QuerySet_eq (v r : QuerySet.t) : QuerySet.idArr v = QuerySet.idArr r → v = r.
Proof. destruct v, r. cbn. by intros ->. Qed.

Lemma length_List_filter_le {A} (p : A → bool) (l : list A) :
  (length (List.filter p l) ≤ length l)%nat.
Proof. induction l as [| a l IH]; cbn; [lia |]. destruct (p a); cbn; lia. Qed.

Lemma length_sortByAll cmp path l fieldNames :
  length (sortByAll cmp path l fieldNames) = length l.
Proof.
  rewrite sortByAll_by_fields. apply Permutation_length, Array_sort_Permutation.
Qed.

(** X7: whatever the entity map holds, [filter] and [exclude] give no
    more identifiers than the QuerySet has, [orderBy] and [all] give as
    many, and [exists] is false exactly of the QuerySet without
    identifiers. *)
Theorem QuerySet_counts
    (cmp : value → value → comparison) (path : string → record → value)
    (mgr : Manager) (c : criteria)
    (fieldNames : list string) (v : QuerySet.t) :
  (QuerySet.count (QuerySet.filter mgr c v) ≤ QuerySet.count v)%nat
  ∧ (QuerySet.count (QuerySet.exclude mgr c v) ≤ QuerySet.count v)%nat
  ∧ QuerySet.count (QuerySet.orderBy cmp path mgr fieldNames v) = QuerySet.count v
  ∧ QuerySet.count (QuerySet.all v) = QuerySet.count v
  ∧ (QuerySet.exists_ v = false ↔ QuerySet.idArr v = [])
  ∧ QuerySet.exists_ (QuerySet.orderBy cmp path mgr fieldNames v) = QuerySet.exists_ v.
Proof.
  assert (QuerySet.count (QuerySet.orderBy cmp path mgr fieldNames v) = QuerySet.count v) as Ho.
  { unfold QuerySet.count, QuerySet.orderBy, QuerySet.getFullEntities. cbn.
    by rewrite length_map, length_sortByAll, length_map. }
  split; [| split; [| split; [| split; [| split]]]].
  - unfold QuerySet.count, QuerySet.filter, QuerySet.getFullEntities. cbn.
    rewrite length_map. destruct c.
    + etrans; [apply length_List_filter_le |]. by rewrite length_map.
    + etrans; [apply length_List_filter_le |]. by rewrite length_map.
  - unfold QuerySet.count, QuerySet.exclude, QuerySet.getFullEntities, reject. cbn.
    rewrite length_map. etrans; [apply length_List_filter_le |]. by rewrite length_map.
  - exact Ho.
  - reflexivity.
  - unfold QuerySet.exists_, QuerySet.count. destruct (QuerySet.idArr v); cbn; split; done.
  - unfold QuerySet.exists_. by rewrite Ho.
Qed.

(** ** Chains of filters *)

Lemma filter_idArr_passes mgr c v :
  ids_read_back mgr v →
  QuerySet.idArr (QuerySet.filter mgr c v) = List.filter (passes mgr c) (QuerySet.idArr v).
Proof. apply filter_idArr. Qed.

Lemma exclude_idArr_passes mgr o v :
  ids_read_back mgr v →
  QuerySet.idArr (QuerySet.exclude mgr (Lookup o) v)
  = List.filter (λ id, negb (passes mgr (Lookup o) id)) (QuerySet.idArr v).
Proof. apply exclude_idArr. Qed.

Lemma filter_read_back mgr c v :
  ids_read_back mgr v → ids_read_back mgr (QuerySet.filter mgr c v).
Proof.
  intros Hback id Hin. rewrite filter_idArr_passes in Hin by done.
  apply elem_of_List_filter in Hin as [Hin _]. by apply Hback.
Qed.

Lemma exclude_read_back mgr c v :
  ids_read_back mgr v → ids_read_back mgr (QuerySet.exclude mgr c v).
Proof.
  intros Hback id Hin. rewrite exclude_idArr in Hin by done.
  apply elem_of_List_filter in Hin as [Hin _]. by apply Hback.
Qed.

Lemma List_filter_filter {A} (p q : A → bool) (l : list A) :
  List.filter p (List.filter q l) = List.filter (λ a, q a && p a) l.
Proof.
  induction l as [| a l IH]; cbn; [reflexivity |].
  destruct (q a); cbn; [destruct (p a) |]; by rewrite IH.
Qed.

(** X8: with identifiers that read back, filtering twice by the same
    criteria is filtering once, and two filters give the same QuerySet
    in either order. *)
Theorem filter_idempotent_commutes (mgr : Manager) (c1 c2 : criteria) (v : QuerySet.t) :
  ids_read_back mgr v →
  QuerySet.filter mgr c1 (QuerySet.filter mgr c1 v) = QuerySet.filter mgr c1 v
  ∧ QuerySet.filter mgr c1 (QuerySet.filter mgr c2 v)
    = QuerySet.filter mgr c2 (QuerySet.filter mgr c1 v).
Proof.
  intros Hback. split; apply QuerySet_eq.
  - rewrite (filter_idArr_passes mgr c1 (QuerySet.filter mgr c1 v))
      by by apply filter_read_back.
    rewrite filter_idArr_passes by done. rewrite List_filter_filter.
    apply List.filter_ext. intros id. by destruct (passes mgr c1 id).
  - rewrite (filter_idArr_passes mgr c1 (QuerySet.filter mgr c2 v))
      by by apply filter_read_back.
    rewrite (filter_idArr_passes mgr c2 (QuerySet.filter mgr c1 v))
      by by apply filter_read_back.
    rewrite !filter_idArr_passes by done. rewrite !List_filter_filter.
    apply List.filter_ext. intros id. apply andb_comm.
Qed.

Lemma filter_idempotent_commutes_witness :
  ids_read_back books (ids [1; 2; 3]%Z)
  ∧ QuerySet.filter books named_b
      (QuerySet.filter books (Lookup {[ "name" := VStr "b" ]}) (ids [1; 2; 3]%Z))
    = QuerySet.filter books (Lookup {[ "name" := VStr "b" ]})
        (QuerySet.filter books named_b (ids [1; 2; 3]%Z)).
Proof.
  split; [apply books_read_back |].
  apply (filter_idempotent_commutes books named_b (Lookup {[ "name" := VStr "b" ]})
           (ids [1; 2; 3]%Z)).
  apply books_read_back.
Defined.

Lemma match_union (o1 o2 entity : record) :
  agree o1 o2 →
  match_ (Lookup (o1 ∪ o2)) entity
  = match_ (Lookup o1) entity && match_ (Lookup o2) entity.
Proof.
  intros Hagree. apply eq_true_iff_eq. rewrite andb_true_iff, !match_spec. split.
  - intros H. split; intros k x Hk.
    + apply H. by apply lookup_union_Some_l.
    + destruct (o1 !! k) as [y |] eqn:Hy.
      * rewrite <- (Hagree k y x Hy Hk). apply H. by apply lookup_union_Some_l.
      * apply H. rewrite lookup_union_r; done.
  - intros [H1 H2] k x Hk. apply lookup_union_Some_raw in Hk as [Hk | [_ Hk]].
    + by apply H1.
    + by apply H2.
Qed.

(** X9: with identifiers that read back, filtering by one lookup object
    and then by another that gives the properties they share the same
    values is filtering once by the two objects merged. *)
Theorem filter_chain_is_merged_lookup (mgr : Manager) (o1 o2 : record) (v : QuerySet.t) :
  agree o1 o2 →
  ids_read_back mgr v →
  QuerySet.filter mgr (Lookup o2) (QuerySet.filter mgr (Lookup o1) v)
  = QuerySet.filter mgr (Lookup (o1 ∪ o2)) v.
Proof.
  intros Hagree Hback. apply QuerySet_eq.
  rewrite (filter_idArr_passes mgr (Lookup o2) (QuerySet.filter mgr (Lookup o1) v))
    by by apply filter_read_back.
  rewrite !filter_idArr_passes by done. rewrite List_filter_filter.
  apply List.filter_ext. intros id. unfold passes. by rewrite match_union.
Qed.

Lemma filter_chain_is_merged_lookup_witness :
  QuerySet.filter books (Lookup {[ "id" := VNum 2 ]})
    (QuerySet.filter books (Lookup {[ "name" := VStr "b" ]}) (ids [1; 2; 3]%Z))
  = QuerySet.filter books (Lookup ({[ "name" := VStr "b" ]} ∪ {[ "id" := VNum 2 ]}))
      (ids [1; 2; 3]%Z).
Proof.
  apply (filter_chain_is_merged_lookup books {[ "name" := VStr "b" ]} {[ "id" := VNum 2 ]}
           (ids [1; 2; 3]%Z)).
  - intros k x y Hx Hy.
    apply lookup_singleton_Some in Hx as [<- _].
    apply lookup_singleton_Some in Hy as [[=] _].
  - apply books_read_back.
Defined.

Lemma List_filter_none {A} (p : A → bool) (l : list A) :
  (∀ a, p a = false) → List.filter p l = [].
Proof. intros Hp. induction l as [| a l IH]; cbn; [reflexivity |]. by rewrite Hp. Qed.

(** X10: with identifiers that read back, a lookup object and its
    complement cancel: [exclude(o)] of [filter(o)] and [filter(o)] of
    [exclude(o)] have no identifiers, and [exclude(o)] twice is
    [exclude(o)] once. *)
Theorem filter_exclude_cancel (mgr : Manager) (o : record) (v : QuerySet.t) :
  ids_read_back mgr v →
  QuerySet.exclude mgr (Lookup o) (QuerySet.filter mgr (Lookup o) v) = QuerySet._new []
  ∧ QuerySet.filter mgr (Lookup o) (QuerySet.exclude mgr (Lookup o) v) = QuerySet._new []
  ∧ QuerySet.exclude mgr (Lookup o) (QuerySet.exclude mgr (Lookup o) v)
    = QuerySet.exclude mgr (Lookup o) v.
Proof.
  intros Hback. split; [| split]; apply QuerySet_eq.
  - rewrite exclude_idArr_passes by by apply filter_read_back.
    rewrite filter_idArr_passes by done. rewrite List_filter_filter.
    apply List_filter_none. intros id. by destruct (passes mgr (Lookup o) id).
  - rewrite filter_idArr_passes by by apply exclude_read_back.
    rewrite exclude_idArr_passes by done. rewrite List_filter_filter.
    apply List_filter_none. intros id. by destruct (passes mgr (Lookup o) id).
  - rewrite exclude_idArr_passes by by apply exclude_read_back.
    rewrite exclude_idArr_passes by done. rewrite List_filter_filter.
    apply List.filter_ext. intros id. by destruct (passes mgr (Lookup o) id).
Qed.

Lemma filter_exclude_cancel_witness :
  QuerySet.exclude books (Lookup {[ "name" := VStr "b" ]})
    (QuerySet.filter books (Lookup {[ "name" := VStr "b" ]}) (ids [1; 2; 3]%Z))
  = QuerySet._new [].
Proof.
  apply (filter_exclude_cancel books {[ "name" := VStr "b" ]} (ids [1; 2; 3]%Z)).
  apply books_read_back.
Defined.

(** ** Degenerate arguments *)

Lemma match_singleton k x entity :
  match_ (Lookup {[ k := x ]}) entity = strict_eq x (prop_get entity k).
Proof.
  apply eq_true_iff_eq. rewrite match_spec. unfold strict_eq.
  rewrite bool_decide_eq_true. split.
  - intros H. symmetry. apply H. apply lookup_singleton_eq.
  - intros -> k' x' Hk. by apply lookup_singleton_Some in Hk as [<- <-].
Qed.

Lemma match_no_props c entity : lookup_props c = ∅ → match_ c entity = true.
Proof.
  intros Hc. unfold match_. rewrite Hc. apply bool_decide_eq_true. apply map_Forall_empty.
Qed.

Lemma List_filter_all {A} (p : A → bool) (l : list A) :
  (∀ a, a ∈ l → p a = true) → List.filter p l = l.
Proof.
  induction l as [| a l IH]; intros Hp; cbn; [reflexivity |].
  rewrite Hp by (by left). f_equal. apply IH. intros b Hb. apply Hp. by right.
Qed.

(** X11: with identifiers that read back, filtering by a lookup object
    that lists the identifier property alone keeps the occurrences of
    that identifier and nothing else. *)
Theorem filter_by_identifier (mgr : Manager) (x : value) (v : QuerySet.t) :
  ids_read_back mgr v →
  QuerySet.idArr (QuerySet.filter mgr (Lookup {[ getIdAttribute mgr := x ]}) v)
  = List.filter (λ id, bool_decide (id = x)) (QuerySet.idArr v).
Proof.
  intros Hback. rewrite filter_idArr_passes by done.
  apply List.filter_ext_in. intros id Hin. apply list_elem_of_In in Hin.
  unfold passes. rewrite match_singleton.
  change (prop_get (QuerySet.fullEntity mgr id) (getIdAttribute mgr))
    with (QuerySet.entityId mgr (QuerySet.fullEntity mgr id)).
  rewrite (Hback id Hin). unfold strict_eq. apply bool_decide_ext. split; congruence.
Qed.

Lemma filter_by_identifier_witness :
  QuerySet.idArr (QuerySet.filter books (Lookup {[ "id" := VNum 2 ]}) (ids [2; 1; 2]%Z))
  = [VNum 2; VNum 2].
Proof.
  apply (filter_by_identifier books (VNum 2) (ids [2; 1; 2]%Z)). apply books_read_back.
Defined.

(** X12: a lookup argument that lists no property matches every entity.
    [exclude] with a function, which it hands to [match] without calling
    it, or with the empty object gives the QuerySet without identifiers;
    [filter] with the empty object lets every entity through, and gives
    the QuerySet itself when its identifiers read back. *)
Theorem lookup_without_properties (mgr : Manager) (v : QuerySet.t) :
  (∀ p, QuerySet.exclude mgr (Predicate p) v = QuerySet._new [])
  ∧ QuerySet.exclude mgr (Lookup ∅) v = QuerySet._new []
  ∧ QuerySet.idArr (QuerySet.filter mgr (Lookup ∅) v)
    = map (QuerySet.entityId mgr) (QuerySet.getFullEntities mgr v)
  ∧ (ids_read_back mgr v → QuerySet.filter mgr (Lookup ∅) v = v).
Proof.
  assert (∀ c, lookup_props c = ∅ → QuerySet.exclude mgr c v = QuerySet._new []) as Hex.
  { intros c Hc. apply QuerySet_eq. unfold QuerySet.exclude, reject. cbn.
    rewrite List_filter_none; [reflexivity |].
    intros e. by rewrite match_no_props. }
  split; [intros p; by apply Hex |]. split; [by apply Hex |].
  split.
  - unfold QuerySet.filter. cbn. f_equal. apply List_filter_all.
    intros e _. by apply match_no_props.
  - intros Hback. apply QuerySet_eq. rewrite filter_idArr_passes by done.
    apply List_filter_all. intros id _. by apply match_no_props.
Qed.

Lemma lookup_without_properties_witness :
  QuerySet.filter books (Lookup ∅) (ids [3; 1]%Z) = ids [3; 1]%Z.
Proof.
  apply (lookup_without_properties books (ids [3; 1]%Z)). apply books_read_back.
Defined.

Lemma StronglySorted_always {A} (R : A → A → Prop) (l : list A) :
  (∀ a b, R a b) → StronglySorted R l.
Proof.
  intros HR. induction l as [| a l IH]; constructor; [done |].
  apply Forall_forall. intros b _. apply HR.
Qed.

Lemma sortByAll_no_fields cmp path (l : list record) : sortByAll cmp path l [] = l.
Proof.
  rewrite sortByAll_by_fields. apply Array_sort_sorted.
  apply StronglySorted_always. intros a b. unfold by_fields. cbn. discriminate.
Qed.

(** X13: [orderBy] without field names leaves the order alone, whatever
    the comparison of values: the result holds the identifiers of the
    full entities in the order of the QuerySet, and is the QuerySet
    itself when its identifiers read back. *)
Theorem orderBy_no_fields
    (cmp : value → value → comparison) (path : string → record → value)
    (mgr : Manager) (v : QuerySet.t) :
  QuerySet.idArr (QuerySet.orderBy cmp path mgr [] v)
  = map (QuerySet.entityId mgr) (QuerySet.getFullEntities mgr v)
  ∧ (ids_read_back mgr v → QuerySet.orderBy cmp path mgr [] v = v).
Proof.
  assert (QuerySet.idArr (QuerySet.orderBy cmp path mgr [] v)
          = map (QuerySet.entityId mgr) (QuerySet.getFullEntities mgr v)) as Hids.
  { unfold QuerySet.orderBy. cbn. by rewrite sortByAll_no_fields. }
  split; [exact Hids |]. intros Hback. apply QuerySet_eq. rewrite Hids.
  by apply map_entityId_fullEntity.
Qed.

Lemma orderBy_no_fields_witness :
  QuerySet.orderBy compare_strings no_paths books [] (ids [3; 1; 2]%Z) = ids [3; 1; 2]%Z.
Proof.
  apply (orderBy_no_fields compare_strings no_paths books (ids [3; 1; 2]%Z)).
  apply books_read_back.
Defined.

(** X14: with identifiers that read back, [orderBy] gives back a
    QuerySet whose identifiers are in order already, each not above the
    ones after it by the values the iteratees of lodash read for the
    listed names; no property of the comparison is needed. *)
Theorem orderBy_of_sorted
    (cmp : value → value → comparison) (path : string → record → value) (mgr : Manager)
    (fieldNames : list string) (v : QuerySet.t) :
  ids_read_back mgr v →
  StronglySorted (λ a b, by_keys cmp path mgr fieldNames a b ≠ Gt) (QuerySet.idArr v) →
  QuerySet.orderBy cmp path mgr fieldNames v = v.
Proof.
  intros Hback Hsorted. apply QuerySet_eq.
  rewrite orderBy_idArr by done. by apply Array_sort_sorted.
Qed.

Lemma orderBy_of_sorted_witness :
  QuerySet.orderBy compare_strings no_paths books ["name"] (ids [1; 3]%Z) = ids [1; 3]%Z.
Proof.
  apply (orderBy_of_sorted compare_strings no_paths books ["name"] (ids [1; 3]%Z)).
  - apply books_read_back.
  - repeat constructor. vm_compute. discriminate.
Defined.

(** ** Identifiers without a record *)

(** X15: an identifier of the QuerySet that the entity map has no record
    for is kept by [exclude(o)] whenever [o] asks a property other than
    the identifier to have a value other than [undefined]; and [filter(o)]
    drops it when the identifiers read back. *)
Theorem identifier_without_record_is_excluded
    (mgr : Manager) (o : record) (v : QuerySet.t) (id : value) (k : string) (x : value) :
  id ∈ QuerySet.idArr v →
  getEntityMap mgr !! to_key id = None →
  o !! k = Some x → k ≠ getIdAttribute mgr → x ≠ VUndefined →
  id ∈ QuerySet.idArr (QuerySet.exclude mgr (Lookup o) v)
  ∧ (ids_read_back mgr v → id ∉ QuerySet.idArr (QuerySet.filter mgr (Lookup o) v)).
Proof.
  intros Hin Hnone Hk Hne Hx.
  pose proof (fullEntity_missing mgr id Hnone) as Hfull.
  assert (match_ (Lookup o) (QuerySet.fullEntity mgr id) = false) as Hno.
  { apply not_true_is_false. rewrite match_spec. intros H.
    specialize (H k x Hk). rewrite Hfull in H. unfold prop_get in H.
    rewrite lookup_singleton_ne in H by congruence. cbn in H. congruence. }
  split.
  - unfold QuerySet.exclude, QuerySet.getFullEntities, reject. cbn.
    apply list_elem_of_fmap. exists (QuerySet.fullEntity mgr id). split.
    + rewrite Hfull. unfold QuerySet.entityId, prop_get.
      by rewrite lookup_singleton_eq.
    + apply elem_of_List_filter. split; [| by rewrite Hno].
      apply list_elem_of_fmap. by exists id.
  - intros Hback Hf. rewrite filter_idArr_passes in Hf by done.
    apply elem_of_List_filter in Hf as [_ Hf]. unfold passes in Hf. congruence.
Qed.

Lemma identifier_without_record_is_excluded_witness :
  VNum 9 ∈ QuerySet.idArr (QuerySet.exclude books (Lookup {[ "name" := VStr "b" ]})
                             (ids [2; 9]%Z)).
Proof.
  apply (identifier_without_record_is_excluded books {[ "name" := VStr "b" ]}
           (ids [2; 9]%Z) (VNum 9) "name" (VStr "b")).
  - right. left.
  - vm_compute. reflexivity.
  - reflexivity.
  - discriminate.
  - discriminate.
Defined.

(** ** Wrapping and positional access *)

Lemma fullEntity_has_id mgr id :
  QuerySet.fullEntity mgr id !! getIdAttribute mgr
  = Some (QuerySet.entityId mgr (QuerySet.fullEntity mgr id)).
Proof.
  unfold QuerySet.entityId, prop_get. rewrite fullEntity_lookup.
  destruct (stored mgr id !! getIdAttribute mgr); [reflexivity |].
  by rewrite decide_True.
Qed.



Lemma idArr_at_inside (v : QuerySet.t) (i : nat) x :
  QuerySet.idArr v !! i = Some x → QuerySet.idArr_at v (Z.of_nat i) = x.
Proof.
  intros Hi. unfold QuerySet.idArr_at.
  rewrite bool_decide_eq_false_2 by lia. by rewrite Nat2Z.id, Hi.
Qed.

Lemma idArr_at_outside (v : QuerySet.t) (index : Z) :
  (index < 0 ∨ Z.of_nat (QuerySet.count v) ≤ index)%Z →
  QuerySet.idArr_at v index = VUndefined.
Proof.
  intros Hout. unfold QuerySet.idArr_at, QuerySet.count in *.
  case_bool_decide; [reflexivity |].
  rewrite lookup_ge_None_2; [reflexivity | lia].
Qed.

Lemma QuerySet_at_eq get index v mgr :
  QuerySet.at_ get index (v, mgr)
  = QuerySet.with_this v (get {[ getIdAttribute mgr := QuerySet.idArr_at v index ]} mgr).
Proof. reflexivity. Qed.

Lemma QuerySet_last_eq get v mgr :
  QuerySet.last get (v, mgr)
  = QuerySet.at_ get (Z.of_nat (length (QuerySet.idArr v)) - 1) (v, mgr).
Proof. reflexivity. Qed.

(** X17: [at(index)] hands the manager's [get] the identifier at the
    index, and [undefined] for an index below 0 or not below the count;
    there is no bounds check. [first] asks for the first identifier and
    [last] for the last one, and on a QuerySet without identifiers both
    ask for [undefined]. The QuerySet is left as it was, and what [get]
    returns or throws is what the call returns or throws. *)
Theorem at_first_last_lookup
    (get : record → Manager → outcome Manager Entity.t)
    (v : QuerySet.t) (mgr : Manager) :
  (∀ i x, QuerySet.idArr v !! i = Some x →
     QuerySet.at_ get (Z.of_nat i) (v, mgr)
     = QuerySet.with_this v (get {[ getIdAttribute mgr := x ]} mgr))
  ∧ (∀ index, (index < 0 ∨ Z.of_nat (QuerySet.count v) ≤ index)%Z →
       QuerySet.at_ get index (v, mgr)
       = QuerySet.with_this v (get {[ getIdAttribute mgr := VUndefined ]} mgr))
  ∧ (∀ x l, QuerySet.idArr v = x :: l →
       QuerySet.first get (v, mgr)
       = QuerySet.with_this v (get {[ getIdAttribute mgr := x ]} mgr))
  ∧ (∀ x l, QuerySet.idArr v = l ++ [x] →
       QuerySet.last get (v, mgr)
       = QuerySet.with_this v (get {[ getIdAttribute mgr := x ]} mgr))
  ∧ (QuerySet.idArr v = [] →
       QuerySet.first get (v, mgr)
       = QuerySet.with_this v (get {[ getIdAttribute mgr := VUndefined ]} mgr)
       ∧ QuerySet.last get (v, mgr) = QuerySet.first get (v, mgr)).
Proof.
  split; [| split; [| split; [| split]]].
  - intros i x Hi. by rewrite QuerySet_at_eq, (idArr_at_inside v i x).
  - intros index Hout. by rewrite QuerySet_at_eq, idArr_at_outside.
  - intros x l Hv. unfold QuerySet.first.
    rewrite QuerySet_at_eq. f_equal. f_equal. f_equal.
    apply (idArr_at_inside v 0 x). by rewrite Hv.
  - intros x l Hv. rewrite QuerySet_last_eq, QuerySet_at_eq.
    replace (Z.of_nat (length (QuerySet.idArr v)) - 1)%Z with (Z.of_nat (length l)).
    + rewrite (idArr_at_inside v (length l) x); [reflexivity |].
      rewrite Hv. by rewrite list_lookup_middle.
    + rewrite Hv, length_app. cbn. lia.
  - intros Hv.
    assert (QuerySet.first get (v, mgr)
            = QuerySet.with_this v (get {[ getIdAttribute mgr := VUndefined ]} mgr)) as Hfirst.
    { unfold QuerySet.first. rewrite QuerySet_at_eq, idArr_at_outside; [reflexivity |].
      right. unfold QuerySet.count. rewrite Hv. cbn. lia. }
    split; [exact Hfirst |].
    rewrite Hfirst, QuerySet_last_eq, QuerySet_at_eq, idArr_at_outside; [reflexivity |].
    left. rewrite Hv. cbn. lia.
Qed.

Lemma at_first_last_lookup_witness :
  QuerySet.last get_stored (ids [1; 3]%Z, books)
  = Return (Entity.new {[ "id" := VNum 3; "name" := VStr "c" ]}) (ids [1; 3]%Z, books)
  ∧ QuerySet.at_ get_stored 2 (ids [1; 3]%Z, books)
    = Throw RecordNotFound (ids [1; 3]%Z, books).
Proof.
  destruct (at_first_last_lookup get_stored (ids [1; 3]%Z) books)
    as (_ & Hout & _ & Hlast & _).
  split.
  - rewrite (Hlast (VNum 3) [VNum 1] eq_refl). vm_compute. reflexivity.
  - rewrite (Hout 2%Z) by (right; cbn; lia). vm_compute. reflexivity.
Defined.

(** ** A string for an updater *)

Lemma string_props_lookup (s : string) (n i : nat) :
  string_props n s !! pretty (n + i)
  = (λ c, VStr (String c EmptyString)) <$> char_at s i.
Proof.
  revert n i. induction s as [| c s IH]; intros n i; cbn.
  - apply lookup_empty.
  - destruct i as [| i].
    + rewrite Nat.add_0_r. apply lookup_insert_eq.
    + rewrite lookup_insert_ne.
      * replace (n + S i) with (S n + i) by lia. apply IH.
      * intros Heq. apply (inj pretty) in Heq. lia.
Qed.



(** ** Filtering and ordering *)

Section filter_Array_sort.
Context {A : Type} (c : A → A → comparison) (P : A → Prop).
Context (Hc : consistent_on P c) (f : A → bool).

Lemma insert_sorted_first x l :
  (∀ y, head l = Some y → c x y ≠ Gt) → insert_sorted c x l = x :: l.
Proof.
  destruct l as [| y l]; [reflexivity |]. intros Hy. cbn.
  specialize (Hy y eq_refl). by destruct (c x y).
Qed.

Lemma filter_insert_sorted x l :
  P x → Forall P l → StronglySorted (λ a b, c a b ≠ Gt) l →
  List.filter f (insert_sorted c x l)
  = if f x then insert_sorted c x (List.filter f l) else List.filter f l.
Proof.
  destruct Hc as (_ & _ & Htrans). intros Hx HP Hs.
  induction Hs as [| y l Hl IH Hy]; [cbn; by destruct (f x) |].
  apply Forall_cons_1 in HP as [HPy HPl].
  cbn [insert_sorted]. destruct (c x y) eqn:Hxy.
  - cbn [List.filter]. destruct (f x); [| reflexivity].
    symmetry. apply insert_sorted_first. intros z Hz.
    destruct (f y); cbn in Hz.
    + injection Hz as <-. congruence.
    + apply head_Some_elem_of, elem_of_List_filter in Hz as [Hz _].
      apply (Htrans x y z); try done; try congruence.
      * by apply (proj1 (Forall_forall _ _) HPl).
      * by apply (proj1 (Forall_forall _ _) Hy).
  - cbn [List.filter]. destruct (f x); [| reflexivity].
    symmetry. apply insert_sorted_first. intros z Hz.
    destruct (f y); cbn in Hz.
    + injection Hz as <-. congruence.
    + apply head_Some_elem_of, elem_of_List_filter in Hz as [Hz _].
      apply (Htrans x y z); try done; try congruence.
      * by apply (proj1 (Forall_forall _ _) HPl).
      * by apply (proj1 (Forall_forall _ _) Hy).
  - cbn [List.filter]. rewrite (IH HPl).
    destruct (f y), (f x); cbn [insert_sorted]; rewrite ?Hxy; reflexivity.
Qed.

Lemma filter_Array_sort l :
  Forall P l → List.filter f (Array_sort c l) = Array_sort c (List.filter f l).
Proof.
  induction 1 as [| x l Hx Hl IH]; [reflexivity |].
  rewrite Array_sort_cons, filter_insert_sorted; try done.
  - cbn [List.filter]. destruct (f x); [| exact IH].
    by rewrite Array_sort_cons, IH.
  - by rewrite Array_sort_Permutation.
  - by apply (Array_sort_StronglySorted c P).
Qed.
End filter_Array_sort.

Lemma keys_in_filter D path mgr fieldNames c v :
  ids_read_back mgr v → keys_in D path mgr fieldNames v →
  keys_in D path mgr fieldNames (QuerySet.filter mgr c v).
Proof.
  intros Hback Hkeys id Hin. rewrite filter_idArr_passes in Hin by done.
  apply elem_of_List_filter in Hin as [Hin _]. by apply Hkeys.
Qed.

(** X19: filtering and ordering can be done in either order. Where the
    comparison of values is an order on the values the iteratees of
    lodash read from the full entities for the listed names, and the
    identifiers read back, [filter] of
    [orderBy] and [orderBy] of [filter] are the same QuerySet, and so
    are [exclude] of [orderBy] and [orderBy] of [exclude] for a lookup
    object. *)
Theorem filter_orderBy_commute
    (cmp : value → value → comparison) (D : value → Prop)
    (path : string → record → value)
    (mgr : Manager) (fieldNames : list string) (c : criteria) (o : record)
    (v : QuerySet.t) :
  consistent_on D cmp →
  keys_in D path mgr fieldNames v →
  ids_read_back mgr v →
  QuerySet.filter mgr c (QuerySet.orderBy cmp path mgr fieldNames v)
  = QuerySet.orderBy cmp path mgr fieldNames (QuerySet.filter mgr c v)
  ∧ QuerySet.exclude mgr (Lookup o) (QuerySet.orderBy cmp path mgr fieldNames v)
    = QuerySet.orderBy cmp path mgr fieldNames (QuerySet.exclude mgr (Lookup o) v).
Proof.
  intros Hc Hkeys Hback.
  pose proof (by_keys_consistent cmp D path mgr fieldNames Hc) as Hc'.
  assert (Forall (λ id, Forall D (sort_keys path mgr fieldNames id)) (QuerySet.idArr v)) as Hall
    by by apply Forall_forall.
  split; apply QuerySet_eq.
  - rewrite filter_idArr_passes by by apply orderBy_read_back.
    rewrite (orderBy_idArr cmp path mgr fieldNames (QuerySet.filter mgr c v))
      by by apply filter_read_back.
    rewrite orderBy_idArr, filter_idArr_passes by done.
    by eapply filter_Array_sort.
  - rewrite exclude_idArr_passes by by apply orderBy_read_back.
    rewrite (orderBy_idArr cmp path mgr fieldNames (QuerySet.exclude mgr (Lookup o) v))
      by by apply exclude_read_back.
    rewrite orderBy_idArr, exclude_idArr_passes by done.
    by eapply filter_Array_sort.
Qed.

Lemma filter_orderBy_commute_witness :
  QuerySet.exclude books (Lookup {[ "name" := VStr "b" ]})
    (QuerySet.orderBy compare_strings no_paths books ["name"] (ids [3; 1; 2]%Z))
  = QuerySet.orderBy compare_strings no_paths books ["name"]
      (QuerySet.exclude books (Lookup {[ "name" := VStr "b" ]}) (ids [3; 1; 2]%Z)).
Proof.
  apply (filter_orderBy_commute compare_strings is_string no_paths books ["name"]
           named_b {[ "name" := VStr "b" ]} (ids [3; 1; 2]%Z)
           compare_strings_on_strings books_names_are_strings (books_read_back _)).
Defined.
